(** * Neon Defense: the simulation core of [neon-defense-game.js]

    A shallow embedding of the React component [NeonDefense]: its state
    cells, its timer callbacks and its event handlers, followed by the
    properties of the simulation that the specification states.

    Numbers.  JavaScript numbers are modelled by exact arithmetic:
    integer-valued quantities (score, combo, city health, building
    health, timestamps) are [Z]; positions, speeds and random draws are
    [Q].  Rounding of IEEE doubles is not modelled, so what is stated
    of positions, sizes and speeds is kept to what rounding to nearest
    preserves: an interval is closed at an end that an exact value only
    approaches, and a product that is not exact in doubles is given up
    to its rounding.

    Randomness, clock and library.  [Math.random()] is an oracle
    [Math_random : nat -> Q] read through a cursor kept in the state;
    [Date.now()] is an argument of each callback.  [Math.sin] and
    [String.prototype.toUpperCase] are uninterpreted functions.

    State.  The four [useState] cells and the two timeout refs form a
    record [World].  A callback is a computation in the monad [React],
    which threads the [World]: a call [setX(updater)] applies the
    updater to the current content of cell X, and updaters queued by
    one callback are applied in the order of the calls.  Values that a
    callback reads from its closure ([buildings], [gameState],
    [letters]) are explicit arguments: they are the values of the
    render in which the callback was created and do not change while
    the callback runs. *)

From Stdlib Require Import ZArith QArith Qround Qpower List String Ascii Bool Lia Lqa.
Import ListNotations.

Local Open Scope Z_scope.

(** ** Game constants *)

Definition GAME_WIDTH : Q := 800.
Definition GAME_HEIGHT : Q := 550.
Definition BUILDING_COUNT : nat := 8.
Definition TARGET_SCORE : Z := 10000.
Definition INITIAL_LETTER_SPEED : Q := 0.8.
Definition INITIAL_SPAWN_INTERVAL : Q := 2000.
Definition MAX_PARTICLES : nat := 50.

(** ** Letter configuration *)

(** The four entries of [LETTER_TYPES].  The source compares them by
    object identity ([letterType === LETTER_TYPES.FAST]), which is
    equality of constructors here. *)
Inductive LetterType : Type := NORMAL | FAST | BONUS | POWER.

Definition LetterType_eqb (a b : LetterType) : bool :=
  match a, b with
  | NORMAL, NORMAL | FAST, FAST | BONUS, BONUS | POWER, POWER => true
  | _, _ => false
  end.

Definition color (t : LetterType) : string :=
  match t with
  | NORMAL => "#00ff00" | FAST => "#ff0000"
  | BONUS => "#ffff00" | POWER => "#00ffff"
  end.

Definition points (t : LetterType) : Z :=
  match t with
  | NORMAL => 100 | FAST => 200 | BONUS => 300 | POWER => 150
  end.

Definition probability (t : LetterType) : Q :=
  match t with
  | NORMAL => 0.65 | FAST => 0.15 | BONUS => 0.12 | POWER => 0.08
  end.

Definition particleCount (t : LetterType) : Z :=
  match t with
  | NORMAL => 8 | FAST => 12 | BONUS => 15 | POWER => 20
  end.

(** [Object.values(LETTER_TYPES)], in declaration order. *)
Definition LETTER_TYPES_values : list LetterType := [NORMAL; FAST; BONUS; POWER].

(** ** Comparisons of JavaScript numbers *)

Definition Qgeb (a b : Q) : bool := Qle_bool b a.
Definition Qleb (a b : Q) : bool := Qle_bool a b.
Definition Qltb (a b : Q) : bool := negb (Qle_bool b a).
Definition Qgtb (a b : Q) : bool := negb (Qle_bool a b).

(** ** Entities *)

Module Letter.
Record t : Type := mk
  { id : Z;
    char : option string;
    type : LetterType;
    x : Q;
    y : Q;
    rotation : Q;
    scale : Q;
    speed : Q }.
End Letter.

Module Building.
Record t : Type := mk
  { id : Z;
    width : Q;
    height : Q;
    x : Q;
    destroyed : bool;
    health : Z;
    shaking : bool }.
End Building.

Module Particle.
Record t : Type := mk
  { id : Q;
    x : Q;
    y : Q;
    color : string;
    velocity_x : Q;
    velocity_y : Q;
    life : Q;
    size : Q }.
End Particle.

Record GameState : Type := mkGameState
  { score : Z;
    level : Z;
    combo : Z;
    cityHealth : Z;
    highScore : Z;
    lastComboTime : Z;
    lastPoints : Z;
    isActive : bool;
    gameOver : bool;
    victory : bool;
    powerUpActive : bool }.

(** The component state: the cells [gameState], [buildings], [letters],
    [particles], [shake]; whether the timeouts held in the refs
    [comboTimeout] and [shakeTimeout] are pending; and the number of
    draws of [Math.random()] made so far. *)
Record World : Type := mkWorld
  { gameState : GameState;
    buildings : list Building.t;
    letters : list Letter.t;
    particles : list Particle.t;
    shake : bool;
    comboTimeout : bool;
    shakeTimeout : bool;
    draws : nat }.

(** The initial values given to [useState] and [useRef]. *)
Definition initialGameState : GameState :=
  {| score := 0; level := 1; combo := 0; cityHealth := 100; highScore := 0;
     lastComboTime := 0; lastPoints := 0; isActive := false;
     gameOver := false; victory := false; powerUpActive := false |}.

Definition initialWorld : World :=
  {| gameState := initialGameState; buildings := []; letters := [];
     particles := []; shake := false; comboTimeout := false;
     shakeTimeout := false; draws := 0 |}.

(** ** The monad of callbacks *)

Definition React (A : Type) : Type := World -> A * World.

Definition ret {A : Type} (a : A) : React A := fun w => (a, w).

Definition bind {A B : Type} (c : React A) (k : A -> React B) : React B :=
  fun w => let (a, w') := c w in k a w'.

Declare Scope react_scope.
Delimit Scope react_scope with react.
Notation "x <- c ;; k" := (bind c (fun x => k))
  (at level 61, c at next level, right associativity) : react_scope.
Notation "c ;; k" := (bind c (fun _ => k))
  (at level 61, right associativity) : react_scope.
Local Open Scope react_scope.

Definition exec {A : Type} (c : React A) (w : World) : World := snd (c w).

(** [setGameState(prev => u prev)] *)
Definition setGameState (u : GameState -> GameState) : React unit :=
  fun w => (tt, mkWorld (u (gameState w)) (buildings w) (letters w)
                        (particles w) (shake w) (comboTimeout w)
                        (shakeTimeout w) (draws w)).

(** [setBuildings(prev => u prev)], where the updater may itself call
    other setters. *)
Definition setBuildings (u : list Building.t -> React (list Building.t)) : React unit :=
  fun w => let (bs, w') := u (buildings w) w in
           (tt, mkWorld (gameState w') bs (letters w') (particles w')
                        (shake w') (comboTimeout w') (shakeTimeout w') (draws w')).

Definition setLetters (u : list Letter.t -> React (list Letter.t)) : React unit :=
  fun w => let (ls, w') := u (letters w) w in
           (tt, mkWorld (gameState w') (buildings w') ls (particles w')
                        (shake w') (comboTimeout w') (shakeTimeout w') (draws w')).

Definition setParticles (u : list Particle.t -> list Particle.t) : React unit :=
  fun w => (tt, mkWorld (gameState w) (buildings w) (letters w)
                        (u (particles w)) (shake w) (comboTimeout w)
                        (shakeTimeout w) (draws w)).

Definition setShake (b : bool) : React unit :=
  fun w => (tt, mkWorld (gameState w) (buildings w) (letters w)
                        (particles w) b (comboTimeout w)
                        (shakeTimeout w) (draws w)).

(** [clearTimeout] followed by [setTimeout] on the ref: one timeout is
    pending afterwards. *)
Definition armComboTimeout : React unit :=
  fun w => (tt, mkWorld (gameState w) (buildings w) (letters w)
                        (particles w) (shake w) true
                        (shakeTimeout w) (draws w)).

Definition armShakeTimeout : React unit :=
  fun w => (tt, mkWorld (gameState w) (buildings w) (letters w)
                        (particles w) (shake w) (comboTimeout w)
                        true (draws w)).

(** [Array.prototype.map] with an effectful callback [(element, index)]. *)
Fixpoint mapM {A B : Type} (f : A -> nat -> React B) (i : nat) (l : list A)
  : React (list B) :=
  match l with
  | [] => ret []
  | a :: l' => b <- f a i ;; bs <- mapM f (S i) l' ;; ret (b :: bs)
  end.

(** [Array.prototype.filter] with an effectful predicate. *)
Fixpoint filterM {A : Type} (f : A -> React bool) (l : list A)
  : React (list A) :=
  match l with
  | [] => ret []
  | a :: l' =>
      keep <- f a ;; rest <- filterM f l' ;;
      ret (if keep then a :: rest else rest)
  end.

(** [Array.prototype.findIndex]: the index of the first element that
    satisfies [p], and [-1] when there is none. *)
Fixpoint findIndex_from {A : Type} (p : A -> bool) (i : Z) (l : list A) : Z :=
  match l with
  | [] => -1
  | a :: l' => if p a then i else findIndex_from p (i + 1) l'
  end.

Definition findIndex {A : Type} (p : A -> bool) (l : list A) : Z :=
  findIndex_from p 0 l.

(** [Array.prototype.find] with an effectful predicate; [None] is
    [undefined]. *)
Fixpoint findM {A : Type} (p : A -> React bool) (l : list A) : React (option A) :=
  match l with
  | [] => ret None
  | a :: l' => ok <- p a ;; if ok then ret (Some a) else findM p l'
  end.

(** [prev.filter((_, i) => i !== k)] *)
Fixpoint filter_index_neq {A : Type} (k : Z) (i : Z) (l : list A) : list A :=
  match l with
  | [] => []
  | a :: l' =>
      if negb (i =? k) then a :: filter_index_neq k (i + 1) l'
      else filter_index_neq k (i + 1) l'
  end.

(** What [String.prototype.toUpperCase] does to a string of ASCII
    characters: a to z become A to Z and nothing else changes.  On
    other strings the method does more (it maps U+0131 to I and U+017F
    to S, among others), so the component below takes the method as a
    parameter, and this function is only the instance given to it in
    the concrete runs, whose keys are ASCII. *)
Definition toUpperCase_char (c : ascii) : ascii :=
  let n := nat_of_ascii c in
  if (Nat.leb 97 n && Nat.leb n 122)%bool then ascii_of_nat (n - 32) else c.

Fixpoint toUpperCase_ASCII (s : string) : string :=
  match s with
  | EmptyString => EmptyString
  | String c s' => String (toUpperCase_char c) (toUpperCase_ASCII s')
  end.

(** [l.char === key]; a [char] that is [undefined] equals no key. *)
Definition char_eqb (c : option string) (key : string) : bool :=
  match c with
  | Some s => String.eqb s key
  | None => false
  end.

(** ['ABCDEFGHIJKLMNOPQRSTUVWXYZ'[i]]: a one-character string, or
    [undefined] when [i] is out of range. *)
Definition alphabet_at (i : Z) : option string :=
  if i <? 0 then None
  else match String.get (Z.to_nat i) "ABCDEFGHIJKLMNOPQRSTUVWXYZ" with
       | Some c => Some (String c EmptyString)
       | None => None
       end.

(** ** The component *)

Section NeonDefense.

(** The successive results of [Math.random()]; the properties that
    depend on it assume each of them in [[0, 1)]. *)
Variable Math_random : nat -> Q.

Variable Math_sin : Q -> Q.

(** [String.prototype.toUpperCase], on strings in UTF-8.  Nothing is
    assumed of it. *)
Variable toUpperCase : string -> string.

Definition random : React Q :=
  fun w => (Math_random (draws w),
            mkWorld (gameState w) (buildings w) (letters w) (particles w)
                    (shake w) (comboTimeout w) (shakeTimeout w) (S (draws w))).

(** [Array.from({ length: n }, (_, i) => f i)] and
    [Array(n).fill(null).map(() => f)]. *)
Fixpoint arrayFrom {A : Type} (f : nat -> React A) (i n : nat) : React (list A) :=
  match n with
  | O => ret []
  | S n' => a <- f i ;; l <- arrayFrom f (S i) n' ;; ret (a :: l)
  end.

(** *** Initialize buildings *)

(** Width and height are exact here, below 70 and 300; in doubles the
    sums round to nearest and can be 70 and 300. *)
Definition newBuilding (i : nat) : React Building.t :=
  rw <- random ;;
  rh <- random ;;
  ret {| Building.id := Z.of_nat i;
         Building.width := 30 + rw * 40;
         Building.height := 100 + rh * 200;
         Building.x := (inject_Z (Z.of_nat i) * GAME_WIDTH)
                       / inject_Z (Z.of_nat BUILDING_COUNT) + 10;
         Building.destroyed := false;
         Building.health := 3;
         Building.shaking := false |}%Q.

Definition initBuildings : React unit :=
  newBuildings <- arrayFrom newBuilding 0 BUILDING_COUNT ;;
  setBuildings (fun _ => ret newBuildings).

(** *** Particle system *)

Definition updateParticle (p : Particle.t) : Particle.t :=
  {| Particle.id := Particle.id p;
     Particle.x := Particle.x p + Particle.velocity_x p;
     Particle.y := Particle.y p + Particle.velocity_y p;
     Particle.color := Particle.color p;
     Particle.velocity_x := Particle.velocity_x p * 0.98;
     Particle.velocity_y := Particle.velocity_y p * 0.98 + 0.2;
     Particle.life := Particle.life p - 0.02;
     Particle.size := Particle.size p |}%Q.

(** The callback of the interval [particleLoop]. *)
Definition particleLoop : React unit :=
  setParticles (fun prev =>
    firstn MAX_PARTICLES
      (filter (fun p => Qgtb (Particle.life p) 0)
         (map updateParticle prev))).

(** The effect installs the interval only under this condition. *)
Definition particleLoop_enabled (w : World) : bool :=
  negb (negb (isActive (gameState w)) || (List.length (particles w) =? 0)%nat).

(** *** Create explosion particles *)

(** Velocity and size are exact here; in doubles a draw just below 1
    gives a vertical velocity of -12 and a size of 8. *)
Definition newParticle (x y : Q) : React Particle.t :=
  rid <- random ;;
  rvx <- random ;;
  rvy <- random ;;
  rsz <- random ;;
  ret {| Particle.id := rid;
         Particle.x := x;
         Particle.y := y;
         Particle.color := "#ff61ef";
         Particle.velocity_x := (rvx - 0.5) * 8;
         Particle.velocity_y := (rvy - 4) * 4;
         Particle.life := 1;
         Particle.size := 4 + rsz * 4 |}%Q.

Definition newParticles (x y : Q) : React (list Particle.t) :=
  arrayFrom (fun _ => newParticle x y) 0 20.

Definition createExplosion (x y : Q) : React unit :=
  fresh <- newParticles x y ;;
  setParticles (fun prev => firstn MAX_PARTICLES (prev ++ fresh)) ;;
  setShake true ;;
  armShakeTimeout.

(** *** Handle letter collision *)

(** [buildings] is the array captured by the callback; [prev] inside
    the updater is the current content of the cell. *)
Definition isHit (letter : Letter.t) (building : Building.t) : bool :=
  negb (Building.destroyed building)
  && Qgeb (Letter.x letter) (Building.x building)
  && Qleb (Letter.x letter) (Building.x building + Building.width building)%Q.

(** The object returned for the building that is hit. *)
Definition damaged (b : Building.t) : Building.t :=
  let newHealth := Building.health b - 1 in
  {| Building.id := Building.id b;
     Building.width := Building.width b;
     Building.height := Building.height b;
     Building.x := Building.x b;
     Building.destroyed := newHealth <=? 0;
     Building.health := newHealth;
     Building.shaking := true |}.

(** [prev => ({ ...prev, cityHealth: Math.max(0, prev.cityHealth - 10) })] *)
Definition loseCityHealth (prev : GameState) : GameState :=
  mkGameState (score prev) (level prev) (combo prev)
              (Z.max 0 (cityHealth prev - 10))
              (highScore prev) (lastComboTime prev) (lastPoints prev)
              (isActive prev) (gameOver prev) (victory prev)
              (powerUpActive prev).

(** The body of the updater for the building at [hitBuildingIndex]. *)
Definition damage (b : Building.t) : React Building.t :=
  let newHealth := Building.health b - 1 in
  (if newHealth <=? 0 then
     createExplosion (Building.x b + Building.width b / 2)%Q
                     (GAME_HEIGHT - Building.height b / 2)%Q ;;
     setGameState loseCityHealth
   else ret tt) ;;
  ret (damaged b).

Definition handleLetterCollision (buildings : list Building.t) (letter : Letter.t)
  : React unit :=
  let hitBuildingIndex := findIndex (isHit letter) buildings in
  if negb (hitBuildingIndex =? -1) then
    setBuildings (fun prev =>
      mapM (fun b i =>
              if Z.of_nat i =? hitBuildingIndex then damage b else ret b)
           0 prev)
  else ret tt.

(** *** Letter spawning system *)

Definition spawnInterval (gs : GameState) : Q :=
  (INITIAL_SPAWN_INTERVAL * Qpower 0.95 (level gs - 1))%Q.

Definition letterSpeed (gs : GameState) : Q :=
  (INITIAL_LETTER_SPEED * Qpower 1.1 (level gs - 1))%Q.

Definition pickLetterType : React LetterType :=
  found <- findM (fun type => r <- random ;; ret (Qltb r (probability type)))
                 LETTER_TYPES_values ;;
  ret (match found with Some type => type | None => NORMAL end).

(** The speed is the exact product here, 1.2 for a FAST letter at
    level 1; in doubles 0.8 * 1.5 is 1.2000000000000002. *)
Definition newLetter (gs : GameState) (letterType : LetterType) (now : Z)
  : React Letter.t :=
  rc <- random ;;
  rx <- random ;;
  rr <- random ;;
  ret {| Letter.id := now;
         Letter.char := alphabet_at (Qfloor (rc * 26));
         Letter.type := letterType;
         Letter.x := rx * (GAME_WIDTH - 20);
         Letter.y := 0;
         Letter.rotation := rr * 360;
         Letter.scale := 1;
         Letter.speed :=
           letterSpeed gs * (if LetterType_eqb letterType FAST then 1.5 else 1) |}%Q.

(** The callback of the interval [spawnTimer]; [gs] is the game state
    captured by the effect. *)
Definition spawnTimer (gs : GameState) (now : Z) : React unit :=
  letterType <- pickLetterType ;;
  setLetters (fun prev =>
    letter <- newLetter gs letterType now ;;
    ret (prev ++ [letter])).

(** The guard shared by the spawning effect, the movement effect and
    the keyboard handler. *)
Definition running (gs : GameState) : bool :=
  negb (negb (isActive gs) || gameOver gs || victory gs).

(** *** Letter movement and collision *)

(** The new y is the exact sum here; in doubles each sum is rounded, so
    that after many ticks the tick on which a letter reaches the ground
    line can differ by one from the exact count. *)
Definition moveLetter (gs : GameState) (now : Z) (letter : Letter.t) : Letter.t :=
  {| Letter.id := Letter.id letter;
     Letter.char := Letter.char letter;
     Letter.type := Letter.type letter;
     Letter.x := Letter.x letter;
     Letter.y := Letter.y letter
                 + Letter.speed letter * (if powerUpActive gs then 0.5 else 1);
     Letter.rotation := Letter.rotation letter + 1;
     Letter.scale := 1 + Math_sin (inject_Z now / 200) * 0.1;
     Letter.speed := Letter.speed letter |}%Q.

Definition impacts (letter : Letter.t) : bool :=
  Qgeb (Letter.y letter) (GAME_HEIGHT - 20)%Q.

(** The callback of the interval [gameLoop]; [gs] and [buildings] are
    the game state and the buildings captured by the effect, the latter
    through [handleLetterCollision]. *)
Definition gameLoop (gs : GameState) (buildings : list Building.t) (now : Z)
  : React unit :=
  setLetters (fun prev =>
    filterM (fun letter =>
               if impacts letter then
                 handleLetterCollision buildings letter ;; ret false
               else ret true)
            (map (moveLetter gs now) prev)).

(** *** Handle keyboard input *)

Definition newCombo (gs : GameState) (now : Z) : Z :=
  if now - lastComboTime gs <? 1000 then combo gs + 1 else 1.

Definition letterPoints (gs : GameState) (now : Z) (letter : Letter.t) : Z :=
  points (Letter.type letter) * Z.min (newCombo gs now) 10.

Definition scoreLetter (gs : GameState) (now : Z) (letter : Letter.t)
  (prev : GameState) : GameState :=
  mkGameState (score prev + letterPoints gs now letter) (level prev)
              (newCombo gs now) (cityHealth prev) (highScore prev)
              now (letterPoints gs now letter)
              (isActive prev) (gameOver prev) (victory prev)
              (if LetterType_eqb (Letter.type letter) POWER then true
               else powerUpActive prev).

(** [gs] and [letters] are the values captured by the handler. *)
Definition handleKeyPress (gs : GameState) (letters : list Letter.t)
  (e_key : string) (now : Z) : React unit :=
  if negb (running gs) then ret tt
  else
    let key := toUpperCase e_key in
    let letterIndex := findIndex (fun l => char_eqb (Letter.char l) key) letters in
    if negb (letterIndex =? -1) then
      match nth_error letters (Z.to_nat letterIndex) with
      | Some letter =>
          createExplosion (Letter.x letter) (Letter.y letter) ;;
          setLetters (fun prev => ret (filter_index_neq letterIndex 0 prev)) ;;
          setGameState (scoreLetter gs now letter) ;;
          armComboTimeout
      | None => ret tt
      end
    else ret tt.

(** The callback of the timeout held in [comboTimeout]. *)
Definition comboTimeoutFired : React unit :=
  fun w =>
    setGameState (fun prev =>
      mkGameState (score prev) (level prev) 0 (cityHealth prev)
                  (highScore prev) (lastComboTime prev) (lastPoints prev)
                  (isActive prev) (gameOver prev) (victory prev)
                  (powerUpActive prev))
      (mkWorld (gameState w) (buildings w) (letters w) (particles w)
               (shake w) false (shakeTimeout w) (draws w)).

(** The callback of the timeout held in [shakeTimeout]. *)
Definition shakeTimeoutFired : React unit :=
  fun w =>
    setShake false
      (mkWorld (gameState w) (buildings w) (letters w) (particles w)
               (shake w) (comboTimeout w) false (draws w)).

(** *** Reset game state *)

Definition resetGame : React unit :=
  setGameState (fun prev =>
    {| score := 0; level := 1; combo := 0; cityHealth := 100;
       highScore := Z.max (score prev) (highScore prev);
       lastComboTime := 0; lastPoints := 0; isActive := false;
       gameOver := false; victory := false; powerUpActive := false |}) ;;
  setLetters (fun _ => ret []) ;;
  setParticles (fun _ => []) ;;
  newBuildings <- arrayFrom newBuilding 0 BUILDING_COUNT ;;
  setBuildings (fun _ => ret newBuildings).

(** *** Start game *)

Definition startGame (gs : GameState) : React unit :=
  if negb (isActive gs) then
    setGameState (fun prev =>
      mkGameState (score prev) (level prev) (combo prev) (cityHealth prev)
                  (highScore prev) (lastComboTime prev) (lastPoints prev)
                  true (gameOver prev) (victory prev) (powerUpActive prev))
  else ret tt.

(** ** Runs of the component *)

(** What can happen to a mounted component: a click on the play field,
    a click on the button of the end overlay, a key press, and the
    firing of each timer.  A timer callback and a handler run against
    the last render, so the values they capture are those of the world
    they start from.  The button is rendered only when [gameOver] or
    [victory] is set; runs are not restricted by that here, so they
    include all those of the rendered component.

    [handleKeyPress] is registered twice: as a [keypress] listener on
    [window], and as [onKeyPress] of the play field, which takes the
    focus on the click that starts the game.  A key pressed while the
    focus is elsewhere reaches the listener on [window] only: this is
    [KeyPress].  A key pressed while the play field has the focus
    reaches both, one after the other, and both are the handler of the
    last render: the second call runs on the game state and the letters
    that the first one captured, not on what the first one left.  This
    is [KeyPressFocused], with the time that each call reads.  (Two
    calls of which the second has fresh captures are two [KeyPress]
    events in a row.) *)
Inductive Event : Type :=
  | Click
  | PlayAgain
  | KeyPress (e_key : string) (now : Z)
  | KeyPressFocused (e_key : string) (now now' : Z)
  | SpawnTimer (now : Z)
  | GameLoop (now : Z)
  | ParticleLoop
  | ComboTimeout
  | ShakeTimeout.

Definition step (e : Event) (w : World) : World :=
  match e with
  | Click => exec (startGame (gameState w)) w
  | PlayAgain => exec resetGame w
  | KeyPress e_key now =>
      exec (handleKeyPress (gameState w) (letters w) e_key now) w
  | KeyPressFocused e_key now now' =>
      exec (handleKeyPress (gameState w) (letters w) e_key now ;;
            handleKeyPress (gameState w) (letters w) e_key now') w
  | SpawnTimer now =>
      if running (gameState w) then exec (spawnTimer (gameState w) now) w else w
  | GameLoop now =>
      if running (gameState w)
      then exec (gameLoop (gameState w) (buildings w) now) w else w
  | ParticleLoop =>
      if particleLoop_enabled w then exec particleLoop w else w
  | ComboTimeout => if comboTimeout w then exec comboTimeoutFired w else w
  | ShakeTimeout => if shakeTimeout w then exec shakeTimeoutFired w else w
  end.

(** The world after the mount effect that initializes the buildings. *)
Definition mounted : World := exec initBuildings initialWorld.

Definition run (es : list Event) (w : World) : World :=
  fold_left (fun w e => step e w) es w.

Inductive reachable : World -> Prop :=
  | reachable_mounted : reachable mounted
  | reachable_step : forall e w, reachable w -> reachable (step e w).

End NeonDefense.

(** * Predicates used in the statements *)

(** Two worlds that differ at most in the number of random draws made. *)
Definition same_cells (w w' : World) : Prop :=
  gameState w' = gameState w /\ buildings w' = buildings w
  /\ letters w' = letters w /\ particles w' = particles w
  /\ shake w' = shake w /\ comboTimeout w' = comboTimeout w
  /\ shakeTimeout w' = shakeTimeout w.


(** The building stands and its span [[x, x + width]] contains the x of
    the letter. *)
Definition standing_under (letter : Letter.t) (b : Building.t) : Prop :=
  Building.destroyed b = false
  /\ (Building.x b <= Letter.x letter)%Q
  /\ (Letter.x letter <= Building.x b + Building.width b)%Q.

(** [b'] is [b] with one point of health less. *)
Definition one_health_less (b b' : Building.t) : Prop :=
  Building.health b' = Building.health b - 1
  /\ Building.destroyed b' = (Building.health b - 1 <=? 0)
  /\ Building.id b' = Building.id b
  /\ Building.x b' = Building.x b
  /\ Building.width b' = Building.width b
  /\ Building.height b' = Building.height b.

(** The game state changed at most in [cityHealth], which, if it was
    non-negative, did not grow and stayed non-negative. *)
Definition only_cityHealth (gs gs' : GameState) : Prop :=
  score gs' = score gs /\ level gs' = level gs /\ combo gs' = combo gs
  /\ highScore gs' = highScore gs /\ lastComboTime gs' = lastComboTime gs
  /\ lastPoints gs' = lastPoints gs /\ isActive gs' = isActive gs
  /\ gameOver gs' = gameOver gs /\ victory gs' = victory gs
  /\ powerUpActive gs' = powerUpActive gs
  /\ (0 <= cityHealth gs -> 0 <= cityHealth gs' <= cityHealth gs).

(** The flag [destroyed] agrees with the health, which is at most the
    initial 3. *)
Definition building_ok (b : Building.t) : Prop :=
  Building.destroyed b = (Building.health b <=? 0) /\ Building.health b <= 3.

(** What the resolution of collisions may do to a world. *)
Definition collision_effect (w w' : World) : Prop :=
  only_cityHealth (gameState w) (gameState w')
  /\ letters w' = letters w
  /\ comboTimeout w' = comboTimeout w
  /\ ((List.length (particles w) <= MAX_PARTICLES)%nat ->
      (List.length (particles w') <= MAX_PARTICLES)%nat)
  /\ List.length (buildings w') = List.length (buildings w)
  /\ (Forall building_ok (buildings w) -> Forall building_ok (buildings w')).

(** The letter that a key press matches, if the game accepts input and
    a live letter carries the key. *)
Definition matchedLetter (toUpperCase : string -> string) (w : World)
  (e_key : string) : option Letter.t :=
  if running (gameState w) then
    let letterIndex :=
      findIndex (fun l => char_eqb (Letter.char l) (toUpperCase e_key)) (letters w) in
    if letterIndex =? -1 then None
    else nth_error (letters w) (Z.to_nat letterIndex)
  else None.

(** The invariant of runs. *)
Definition Inv (w : World) : Prop :=
  gameOver (gameState w) = false
  /\ victory (gameState w) = false
  /\ level (gameState w) = 1
  /\ 0 <= combo (gameState w)
  /\ 0 <= cityHealth (gameState w) <= 100
  /\ (List.length (particles w) <= MAX_PARTICLES)%nat
  /\ Forall (fun l => (0 < Letter.speed l)%Q) (letters w)
  /\ Forall building_ok (buildings w)
  /\ List.length (buildings w) = BUILDING_COUNT.

(** [l'] is the letter [l] at the same height or lower on the screen
    (y grows downwards). *)
Definition same_letter_lower (l l' : Letter.t) : Prop :=
  Letter.id l' = Letter.id l /\ Letter.char l' = Letter.char l
  /\ Letter.type l' = Letter.type l /\ Letter.x l' = Letter.x l
  /\ Letter.speed l' = Letter.speed l
  /\ (Letter.y l <= Letter.y l')%Q.

(** [ls'] is what is left of the letters [ls] when some of them have
    been removed and the others have stayed where they were or moved
    down: the letters of [ls'] are, in order, letters of [ls], each at
    the same height or lower. *)
Inductive fallen : list Letter.t -> list Letter.t -> Prop :=
  | fallen_nil : fallen [] []
  | fallen_keep : forall l l' ls ls',
      same_letter_lower l l' -> fallen ls ls' -> fallen (l :: ls) (l' :: ls')
  | fallen_drop : forall l ls ls',
      fallen ls ls' -> fallen (l :: ls) ls'.

(** How often the spawn timer fires in a list of events. *)
Definition spawn_firings (es : list Event) : nat :=
  List.length
    (filter (fun e => match e with SpawnTimer _ => true | _ => false end) es).

(** The flag [destroyed] says exactly that no health is left, and the
    health is between 0 and the initial 3. *)
Definition building_sound (b : Building.t) : Prop :=
  Building.destroyed b = (Building.health b =? 0)
  /\ 0 <= Building.health b <= 3.

Definition destroyedCount (bs : list Building.t) : Z :=
  Z.of_nat (List.length (filter Building.destroyed bs)).

(** City health is 100 minus 10 for each destroyed building. *)
Definition Sound (w : World) : Prop :=
  Forall building_sound (buildings w)
  /\ cityHealth (gameState w) = 100 - 10 * destroyedCount (buildings w)
  /\ List.length (buildings w) = BUILDING_COUNT.

(** The letters that reach the ground line on the tick of the game loop
    that starts from [w], and the indices of the buildings against
    which their impacts are resolved: those that [findIndex] returns
    on the buildings of [w], -1 excluded. *)
Definition impacting (Math_sin : Q -> Q) (now : Z) (w : World) : list Letter.t :=
  filter impacts (map (moveLetter Math_sin (gameState w) now) (letters w)).

Definition hits (buildings0 : list Building.t) (ls : list Letter.t) : list Z :=
  filter (fun k => negb (k =? -1))
         (map (fun letter => findIndex (isHit letter) buildings0) ls).

(** Runs in which no tick of the game loop resolves two impacts against
    the same building. *)
Definition one_hit_per_building (Math_sin : Q -> Q) (e : Event) (w : World) : Prop :=
  match e with
  | GameLoop now => NoDup (hits (buildings w) (impacting Math_sin now w))
  | _ => True
  end.

Inductive orderly (Math_random : nat -> Q) (Math_sin : Q -> Q)
  (toUpperCase : string -> string) : World -> Prop :=
  | orderly_mounted :
      orderly Math_random Math_sin toUpperCase (mounted Math_random)
  | orderly_step : forall e w,
      orderly Math_random Math_sin toUpperCase w ->
      one_hit_per_building Math_sin e w ->
      orderly Math_random Math_sin toUpperCase
        (step Math_random Math_sin toUpperCase e w).

(** The same, as a test along a list of events. *)
Fixpoint nodupb (l : list Z) : bool :=
  match l with
  | [] => true
  | k :: l' => negb (existsb (Z.eqb k) l') && nodupb l'
  end.

Definition one_hit_per_buildingb (Math_sin : Q -> Q) (e : Event) (w : World) : bool :=
  match e with
  | GameLoop now => nodupb (hits (buildings w) (impacting Math_sin now w))
  | _ => true
  end.

Fixpoint orderly_run (Math_random : nat -> Q) (Math_sin : Q -> Q)
  (toUpperCase : string -> string)
  (es : list Event) (w : World) : bool :=
  match es with
  | [] => true
  | e :: es' =>
      one_hit_per_buildingb Math_sin e w
      && orderly_run Math_random Math_sin toUpperCase es'
           (step Math_random Math_sin toUpperCase e w)
  end.

(** * Concrete runs *)

(** An oracle whose every draw is 1/39: each building is 30 + 40/39
    wide, and each spawned letter is a NORMAL "A" at x = 20, above the
    first building, which spans [10, 10 + 30 + 40/39]. *)
Definition steady : nat -> Q := fun _ => (1 # 39)%Q.

(** An oracle whose draws are all different: 0, 1/2, 2/3, 3/4, ... *)
Definition ramp : nat -> Q := fun n => (Z.of_nat n # Pos.of_succ_nat n)%Q.

Definition no_sin : Q -> Q := fun _ => 0%Q.

(** The player clicks, and a letter is spawned above the first
    building. *)
Definition first_letter : World :=
  run steady no_sin toUpperCase_ASCII [Click; SpawnTimer 1700000000000]
      (mounted steady).

(** The letter that [first_letter] has on screen. *)
Definition first_A : Letter.t :=
  {| Letter.id := 1700000000000; Letter.char := Some "A"%string;
     Letter.type := NORMAL; Letter.x := (1 # 39) * (GAME_WIDTH - 20);
     Letter.y := 0; Letter.rotation := (1 # 39) * 360; Letter.scale := 1;
     Letter.speed := letterSpeed initialGameState * 1 |}%Q.

(** In [first_letter] the player presses the key "a" while the play
    field has the focus, which it took on the click: the key press
    reaches the handler twice, within the same millisecond. *)
Definition focused_press : World :=
  step steady no_sin toUpperCase_ASCII
       (KeyPressFocused "a" 1700000000500 1700000000500) first_letter.

(** The player clicks, [n] letters are spawned above the first
    building before the game loop next fires, and then the game loop
    fires 663 times: on the last of these ticks every one of the
    letters reaches y = 0.8 * 663 = 530.4 >= 530. *)
Definition volley (n : nat) : list Event :=
  Click :: repeat (SpawnTimer 1700000000000) n
        ++ repeat (GameLoop 1700000000016) 663.

Definition after_volley (n : nat) : World :=
  run steady no_sin toUpperCase_ASCII (volley n) (mounted steady).

(** The player clicks; then, a hundred times, a letter "A" is spawned
    and the player types it half a second later.  Spawns are 2000 ms
    apart, so each match starts a new streak and scores 100. *)
Definition typist (rounds : nat) : list Event :=
  Click :: flat_map (fun i => [SpawnTimer (1700000000000 + 2000 * Z.of_nat i);
                               KeyPress "a" (1700000000500 + 2000 * Z.of_nat i)])
                    (seq 0 rounds).

Definition after_typist (rounds : nat) : World :=
  run steady no_sin toUpperCase_ASCII (typist rounds) (mounted steady).

(** Two bursts on the initial world, which leave 40 live particles. *)
Definition two_bursts : World :=
  exec (createExplosion ramp 0 0 ;; createExplosion ramp 0 0) initialWorld.

(** A letter "A" at x = 20 that has reached the ground line. *)
Definition landed_A : Letter.t :=
  {| Letter.id := 1700000000000; Letter.char := Some "A"%string;
     Letter.type := NORMAL; Letter.x := 20; Letter.y := 530.4;
     Letter.rotation := 0; Letter.scale := 1; Letter.speed := 0.8 |}%Q.

(** What the runs below are observed through: the game state, and the
    health and the flag [destroyed] of each building. *)
Definition outcome (w : World) : GameState * list Z * list bool :=
  (gameState w, map Building.health (buildings w),
   map Building.destroyed (buildings w)).

(** The buildings that the game loop has captured are those of the
    mounted component; three impacts of [landed_A] have been resolved
    against them within the tick, and a fourth is about to be. *)
Definition three_impacts : World :=
  exec (handleLetterCollision steady (buildings (mounted steady)) landed_A ;;
        handleLetterCollision steady (buildings (mounted steady)) landed_A ;;
        handleLetterCollision steady (buildings (mounted steady)) landed_A)
       (mounted steady).

Definition fourth_impact : World :=
  exec (handleLetterCollision steady (buildings (mounted steady)) landed_A)
       three_impacts.

(** Three letters are spawned above the first building, one tick
    apart, and reach the ground line on three successive ticks. *)
Definition single_file : list Event :=
  [Click; SpawnTimer 1700000000000; GameLoop 1700000000016;
   SpawnTimer 1700000000020; GameLoop 1700000000032;
   SpawnTimer 1700000000040]
  ++ repeat (GameLoop 1700000000048) 663.

(** * Further predicates: the board *)

(** A one-character string holding a capital letter A to Z. *)
Definition is_capital (c : option string) : Prop :=
  exists a, c = Some (String a EmptyString)
            /\ (65 <= nat_of_ascii a <= 90)%nat.

(** The building at index [i] as [Array.from] lays it out: its left
    edge at 100 i + 10, between 30 and 70 wide, between 100 and 300
    high.  The intervals are closed: a draw just below 1 gives, once
    rounded, a width of 70 or a height of 300. *)
Definition building_at (i : nat) (b : Building.t) : Prop :=
  Building.id b = Z.of_nat i
  /\ (Building.x b == inject_Z (Z.of_nat i) * 100 + 10)%Q
  /\ (30 <= Building.width b /\ Building.width b <= 70)%Q
  /\ (100 <= Building.height b /\ Building.height b <= 300)%Q.

Definition laid_out (bs : list Building.t) : Prop :=
  List.length bs = BUILDING_COUNT
  /\ forall i b, nth_error bs i = Some b -> building_at i b.

(** The speed of a letter of type [t] at level 1, up to the rounding
    of the products that give it: 0.8 times 1.5 for FAST, which in
    doubles is just above 1.2, and 0.8 for the other types. *)
Definition speed_of_type (t : LetterType) (v : Q) : Prop :=
  if LetterType_eqb t FAST then (1.2 <= v /\ v <= 1.2 + 0.000000001)%Q
  else (0.8 <= v /\ v <= 0.8 + 0.000000001)%Q.

(** A live letter: above the ground line, inside the play width, a
    capital letter, falling at the speed of its type at level 1. *)
Definition letter_ok (l : Letter.t) : Prop :=
  (0 <= Letter.y l /\ Letter.y l < GAME_HEIGHT - 20)%Q
  /\ (0 <= Letter.x l /\ Letter.x l < GAME_WIDTH - 20)%Q
  /\ is_capital (Letter.char l)
  /\ speed_of_type (Letter.type l) (Letter.speed l).

(** A live particle: some life left, at most the initial life, and the
    size it was created with. *)
Definition particle_ok (p : Particle.t) : Prop :=
  (0 < Particle.life p /\ Particle.life p <= 1)%Q
  /\ (4 <= Particle.size p /\ Particle.size p <= 8)%Q
  /\ Particle.color p = "#ff61ef"%string.

(** The board of a game that has not been started: nothing on screen,
    nothing scored, nothing damaged. *)
Definition pristine (w : World) : Prop :=
  letters w = [] /\ particles w = []
  /\ score (gameState w) = 0 /\ combo (gameState w) = 0
  /\ cityHealth (gameState w) = 100
  /\ lastComboTime (gameState w) = 0 /\ lastPoints (gameState w) = 0
  /\ powerUpActive (gameState w) = false
  /\ Forall (fun b => Building.health b = 3 /\ Building.destroyed b = false)
            (buildings w).

Definition Board (w : World) : Prop :=
  laid_out (buildings w)
  /\ Forall letter_ok (letters w)
  /\ Forall particle_ok (particles w)
  /\ 0 <= score (gameState w)
  /\ (isActive (gameState w) = false -> pristine w).

(** The first type, in declaration order, whose probability exceeds its
    own draw; NORMAL when none does. *)
Definition firstTypeUnder (r0 r1 r2 r3 : Q) : LetterType :=
  if Qltb r0 0.65 then NORMAL
  else if Qltb r1 0.15 then FAST
  else if Qltb r2 0.12 then BONUS
  else if Qltb r3 0.08 then POWER
  else NORMAL.

Definition drawsForType (r0 r1 r2 : Q) : nat :=
  if Qltb r0 0.65 then 1
  else if Qltb r1 0.15 then 2
  else if Qltb r2 0.12 then 3
  else 4.


(** The events whose handlers call [createExplosion]. *)
Definition makes_particles (e : Event) : bool :=
  match e with
  | KeyPress _ _ | KeyPressFocused _ _ _ | GameLoop _ => true
  | _ => false
  end.

(** How often the particle interval fires in a list of events. *)
Definition particle_ticks (es : list Event) : nat :=
  List.length (filter (fun e => match e with ParticleLoop => true | _ => false end) es).

(** What play does to the game state between two resets: the score
    does not fall, city health does not rise, high score and level stay,
    and neither the flag [isActive] nor a power-up is taken back. *)
Definition played_on (gs gs' : GameState) : Prop :=
  score gs <= score gs'
  /\ cityHealth gs' <= cityHealth gs
  /\ highScore gs' = highScore gs
  /\ level gs' = level gs
  /\ (isActive gs = true -> isActive gs' = true)
  /\ (powerUpActive gs = true -> powerUpActive gs' = true).

(** No letter of [ls] carries the upper-case form of the key. *)
Definition no_letter_for (toUpperCase : string -> string) (e_key : string)
  (ls : list Letter.t) : Prop :=
  Forall (fun l => char_eqb (Letter.char l) (toUpperCase e_key) = false) ls.

(** Whatever is to be undone by a timeout has its timeout pending: a
    shaking screen the one that stops the shake, a positive combo the
    one that ends the streak. *)
Definition timers_pending (w : World) : Prop :=
  (shake w = true -> shakeTimeout w = true)
  /\ (0 < combo (gameState w) -> comboTimeout w = true).

(** The world [w] with other letters. *)
Definition with_letters (w : World) (ls : list Letter.t) : World :=
  mkWorld (gameState w) (buildings w) ls (particles w) (shake w)
          (comboTimeout w) (shakeTimeout w) (draws w).
(** * Properties *)

(** ** Reasoning about callbacks *)

Lemma same_cells_refl (w : World) : same_cells w w.
Proof. repeat split. Qed.

Lemma same_cells_trans (w1 w2 w3 : World) :
  same_cells w1 w2 -> same_cells w2 w3 -> same_cells w1 w3.
Proof.
  unfold same_cells. intros H12 H23.
  decompose [and] H12. decompose [and] H23. repeat split; congruence.
Qed.

(** Callbacks are stepped through with the equations below, never by
    unfolding them on a symbolic world. *)
Lemma bind_run {A B : Type} (c : React A) (k : A -> React B) (w : World) :
  bind c k w = k (fst (c w)) (exec c w).
Proof. unfold bind, exec. destruct (c w); reflexivity. Qed.

Lemma exec_bind {A B : Type} (c : React A) (k : A -> React B) (w : World) :
  exec (bind c k) w = exec (k (fst (c w))) (exec c w).
Proof. unfold exec at 1 2. now rewrite bind_run. Qed.

Lemma fst_bind {A B : Type} (c : React A) (k : A -> React B) (w : World) :
  fst (bind c k w) = fst (k (fst (c w)) (exec c w)).
Proof. now rewrite bind_run. Qed.

Lemma exec_ret {A : Type} (a : A) (w : World) : exec (ret a) w = w.
Proof. reflexivity. Qed.

Lemma fst_ret {A : Type} (a : A) (w : World) : fst (ret a w) = a.
Proof. reflexivity. Qed.

Lemma exec_setGameState (u : GameState -> GameState) (w : World) :
  exec (setGameState u) w
  = mkWorld (u (gameState w)) (buildings w) (letters w) (particles w)
            (shake w) (comboTimeout w) (shakeTimeout w) (draws w).
Proof. reflexivity. Qed.

Lemma exec_setParticles (u : list Particle.t -> list Particle.t) (w : World) :
  exec (setParticles u) w
  = mkWorld (gameState w) (buildings w) (letters w) (u (particles w))
            (shake w) (comboTimeout w) (shakeTimeout w) (draws w).
Proof. reflexivity. Qed.

Lemma exec_setBuildings (u : list Building.t -> React (list Building.t)) (w : World) :
  exec (setBuildings u) w
  = mkWorld (gameState (exec (u (buildings w)) w)) (fst (u (buildings w) w))
            (letters (exec (u (buildings w)) w))
            (particles (exec (u (buildings w)) w))
            (shake (exec (u (buildings w)) w))
            (comboTimeout (exec (u (buildings w)) w))
            (shakeTimeout (exec (u (buildings w)) w))
            (draws (exec (u (buildings w)) w)).
Proof. unfold exec, setBuildings. destruct (u (buildings w) w); reflexivity. Qed.

Lemma exec_setLetters (u : list Letter.t -> React (list Letter.t)) (w : World) :
  exec (setLetters u) w
  = mkWorld (gameState (exec (u (letters w)) w))
            (buildings (exec (u (letters w)) w))
            (fst (u (letters w) w))
            (particles (exec (u (letters w)) w))
            (shake (exec (u (letters w)) w))
            (comboTimeout (exec (u (letters w)) w))
            (shakeTimeout (exec (u (letters w)) w))
            (draws (exec (u (letters w)) w)).
Proof. unfold exec, setLetters. destruct (u (letters w) w); reflexivity. Qed.

Lemma arrayFrom_length {A : Type} (f : nat -> React A) (n i : nat) (w : World) :
  List.length (fst (arrayFrom f i n w)) = n.
Proof.
  revert i w. induction n as [|n IH]; intros i w; simpl.
  - reflexivity.
  - rewrite !fst_bind, fst_ret. simpl. now rewrite IH.
Qed.

Lemma arrayFrom_Forall {A : Type} (P : A -> Prop) (f : nat -> React A) :
  (forall i w, P (fst (f i w))) ->
  forall n i w, Forall P (fst (arrayFrom f i n w)).
Proof.
  intros Hf n. induction n as [|n IH]; intros i w; simpl.
  - constructor.
  - rewrite !fst_bind, fst_ret. constructor; [apply Hf | apply IH].
Qed.

Lemma arrayFrom_same_cells {A : Type} (f : nat -> React A) :
  (forall i w, same_cells w (exec (f i) w)) ->
  forall n i w, same_cells w (exec (arrayFrom f i n) w).
Proof.
  intros Hf n. induction n as [|n IH]; intros i w; simpl.
  - apply same_cells_refl.
  - rewrite !exec_bind, exec_ret.
    eapply same_cells_trans; [apply Hf | apply IH].
Qed.

Section Properties.

Variable Math_random : nat -> Q.
Hypothesis Math_random_range : forall n, (0 <= Math_random n /\ Math_random n < 1)%Q.
Variable Math_sin : Q -> Q.
Variable toUpperCase : string -> string.

(** *** Explosion bursts *)


Lemma newParticle_same_cells (x y : Q) (w : World) :
  same_cells w (exec (newParticle Math_random x y) w).
Proof. repeat split. Qed.

Lemma newParticles_same_cells (x y : Q) (w : World) :
  same_cells w (exec (newParticles Math_random x y) w).
Proof.
  unfold newParticles. apply arrayFrom_same_cells.
  intros _ w'. apply newParticle_same_cells.
Qed.

(** The effect of [createExplosion] on each cell. *)
Lemma createExplosion_cells (x y : Q) (w : World) :
  gameState (exec (createExplosion Math_random x y) w) = gameState w
  /\ buildings (exec (createExplosion Math_random x y) w) = buildings w
  /\ letters (exec (createExplosion Math_random x y) w) = letters w
  /\ particles (exec (createExplosion Math_random x y) w) =
       firstn MAX_PARTICLES (particles w ++ fst (newParticles Math_random x y w))
  /\ comboTimeout (exec (createExplosion Math_random x y) w) = comboTimeout w.
Proof.
  unfold createExplosion. rewrite !exec_bind.
  pose proof (newParticles_same_cells x y w) as H. revert H.
  generalize (exec (newParticles Math_random x y) w).
  generalize (fst (newParticles Math_random x y w)).
  intros fresh w1 (Hg & Hb & Hl & Hp & _ & Hc & _).
  cbn. rewrite Hg, Hb, Hl, Hp, Hc. repeat split.
Qed.


(** *** The cap on live particles *)

Lemma particleLoop_capped (w : World) :
  (List.length (particles (exec particleLoop w)) <= MAX_PARTICLES)%nat.
Proof. cbn [exec particleLoop setParticles snd particles]. apply firstn_le_length. Qed.

Lemma createExplosion_capped (x y : Q) (w : World) :
  (List.length (particles (exec (createExplosion Math_random x y) w)) <= MAX_PARTICLES)%nat.
Proof.
  destruct (createExplosion_cells x y w) as (_ & _ & _ & Hp & _).
  rewrite Hp. apply firstn_le_length.
Qed.

(** C8 (as amended).  When a burst is appended, the particles already
    live keep their places, the fresh ones follow in order as long as
    there is room under the cap, and the fresh ones that do not fit,
    the most recently appended, are the ones discarded. *)
Theorem createExplosion_keeps_oldest (x y : Q) (w : World) :
  let prev := particles w in
  let fresh := fst (newParticles Math_random x y w) in
  let after := particles (exec (createExplosion Math_random x y) w) in
  after = firstn MAX_PARTICLES prev
          ++ firstn (MAX_PARTICLES - List.length prev) fresh
  /\ (forall i p, (i < MAX_PARTICLES)%nat ->
        nth_error prev i = Some p -> nth_error after i = Some p)
  /\ (forall j p, nth_error fresh j = Some p ->
        ((List.length prev + j < MAX_PARTICLES)%nat ->
           nth_error after (List.length prev + j) = Some p)
        /\ ((MAX_PARTICLES <= List.length prev + j)%nat ->
           nth_error after (List.length prev + j) = None)).
Proof.
  intros prev fresh after.
  assert (Hafter : after = firstn MAX_PARTICLES (prev ++ fresh)).
  { destruct (createExplosion_cells x y w) as (_ & _ & _ & Hp & _). exact Hp. }
  split; [| split].
  - rewrite Hafter. apply firstn_app.
  - intros i p Hi Hp. rewrite Hafter, nth_error_firstn.
    apply Nat.ltb_lt in Hi. rewrite Hi.
    rewrite nth_error_app1; [exact Hp |].
    apply nth_error_Some. congruence.
  - intros j p Hp. split; intros Hj.
    + rewrite Hafter, nth_error_firstn.
      apply Nat.ltb_lt in Hj. rewrite Hj.
      rewrite nth_error_app2 by lia.
      replace (List.length prev + j - List.length prev)%nat with j by lia.
      exact Hp.
    + apply nth_error_None. rewrite Hafter.
      etransitivity; [apply firstn_le_length | exact Hj].
Qed.

(** *** Collision resolution *)

Lemma isHit_iff (letter : Letter.t) (b : Building.t) :
  isHit letter b = true <-> standing_under letter b.
Proof.
  unfold isHit, standing_under, Qgeb, Qleb.
  rewrite !andb_true_iff, negb_true_iff, !Qle_bool_iff. tauto.
Qed.

Lemma findIndex_from_found {A : Type} (p : A -> bool) (l : list A) (i : Z) :
  0 <= i ->
  findIndex_from p i l = -1 /\ Forall (fun a => p a = false) l
  \/ exists n a,
       findIndex_from p i l = i + Z.of_nat n
       /\ nth_error l n = Some a /\ p a = true
       /\ forall m b, (m < n)%nat -> nth_error l m = Some b -> p b = false.
Proof.
  revert i. induction l as [|a l IH]; intros i Hi; simpl.
  - left. split; [reflexivity | constructor].
  - destruct (p a) eqn:Hpa.
    + right. exists 0%nat, a. simpl. repeat split; try lia; auto.
    + destruct (IH (i + 1)) as [[Hnone Hall] | (n & a' & Hk & Hn & Hpa' & Hfirst)].
      * lia.
      * left. split; [exact Hnone | constructor; assumption].
      * right. exists (S n), a'. simpl.
        repeat split; try assumption; try lia.
        intros [|m] b Hm Hb; simpl in Hb.
        -- congruence.
        -- apply (Hfirst m b); [lia | exact Hb].
Qed.

Lemma findIndex_found {A : Type} (p : A -> bool) (l : list A) :
  findIndex p l = -1 /\ Forall (fun a => p a = false) l
  \/ exists n a,
       findIndex p l = Z.of_nat n
       /\ nth_error l n = Some a /\ p a = true
       /\ forall m b, (m < n)%nat -> nth_error l m = Some b -> p b = false.
Proof.
  unfold findIndex.
  destruct (findIndex_from_found p l 0) as [H | (n & a & H)]; [lia | left; exact H |].
  right. exists n, a. exact H.
Qed.

Lemma collision_effect_refl (w : World) : collision_effect w w.
Proof. unfold collision_effect, only_cityHealth. repeat split; auto; lia. Qed.

Lemma collision_effect_trans (w1 w2 w3 : World) :
  collision_effect w1 w2 -> collision_effect w2 w3 -> collision_effect w1 w3.
Proof.
  unfold collision_effect, only_cityHealth. intros H12 H23.
  decompose [and] H12. decompose [and] H23.
  repeat split; try congruence; try lia; auto.
Qed.

(** What [damage] returns, and what it does to the world. *)
Lemma damage_fst (b : Building.t) (w : World) :
  fst (damage Math_random b w) = damaged b.
Proof. unfold damage. now rewrite fst_bind, fst_ret. Qed.

Lemma damage_exec (b : Building.t) (w : World) :
  exec (damage Math_random b) w
  = if Building.health b - 1 <=? 0 then
      exec (setGameState loseCityHealth)
           (exec (createExplosion Math_random
                    (Building.x b + Building.width b / 2)%Q
                    (GAME_HEIGHT - Building.height b / 2)%Q) w)
    else w.
Proof.
  unfold damage. rewrite exec_bind, exec_ret.
  destruct (Building.health b - 1 <=? 0).
  - now rewrite exec_bind.
  - apply exec_ret.
Qed.

Lemma damage_effect (b : Building.t) (w : World) :
  buildings (exec (damage Math_random b) w) = buildings w
  /\ collision_effect w (exec (damage Math_random b) w).
Proof.
  rewrite damage_exec.
  destruct (Building.health b - 1 <=? 0).
  - pose proof (createExplosion_cells
                  (Building.x b + Building.width b / 2)%Q
                  (GAME_HEIGHT - Building.height b / 2)%Q w) as H.
    pose proof (createExplosion_capped
                  (Building.x b + Building.width b / 2)%Q
                  (GAME_HEIGHT - Building.height b / 2)%Q w) as Hcap.
    revert H Hcap.
    generalize (exec (createExplosion Math_random
                        (Building.x b + Building.width b / 2)%Q
                        (GAME_HEIGHT - Building.height b / 2)%Q) w).
    intros w1 (Hg & Hb & Hl & _ & Hc) Hcap.
    unfold collision_effect, only_cityHealth. cbn.
    rewrite Hg, Hb, Hl, Hc. repeat split; auto; lia.
  - split; [reflexivity | apply collision_effect_refl].
Qed.

(** The updater of [handleLetterCollision], applied to [prev] from
    index [i] on. *)
Lemma mapM_damage (k : Z) (prev : list Building.t) (i : nat) (w : World) :
  List.length (fst (mapM (fun b i => if Z.of_nat i =? k then damage Math_random b
                                     else ret b) i prev w))
  = List.length prev
  /\ (forall j b, nth_error prev j = Some b ->
        nth_error (fst (mapM (fun b i => if Z.of_nat i =? k then damage Math_random b
                                         else ret b) i prev w)) j
        = Some (if Z.of_nat (i + j) =? k then damaged b else b))
  /\ buildings (exec (mapM (fun b i => if Z.of_nat i =? k then damage Math_random b
                                       else ret b) i prev) w)
     = buildings w
  /\ collision_effect w
       (exec (mapM (fun b i => if Z.of_nat i =? k then damage Math_random b
                               else ret b) i prev) w).
Proof.
  revert i w. induction prev as [|b prev IH]; intros i w; simpl mapM.
  - rewrite exec_ret, fst_ret.
    refine (conj eq_refl (conj _ (conj eq_refl (collision_effect_refl w)))).
    intros [|j] b Hb; discriminate.
  - rewrite !exec_bind, !fst_bind, exec_ret, fst_ret.
    set (c := if Z.of_nat i =? k then damage Math_random b else ret b).
    assert (Hc : fst (c w) = (if Z.of_nat i =? k then damaged b else b)
                 /\ buildings (exec c w) = buildings w
                 /\ collision_effect w (exec c w)).
    { unfold c. destruct (Z.of_nat i =? k).
      - split; [apply damage_fst | apply damage_effect].
      - exact (conj eq_refl (conj eq_refl (collision_effect_refl w))). }
    destruct Hc as (Hc1 & Hc2 & Hc3).
    destruct (IH (S i) (exec c w)) as (Hlen & Hnth & Hbs & Heff).
    split; [| split; [| split]].
    + simpl. now rewrite Hlen.
    + intros [|j] b0 Hb0; simpl in Hb0; simpl nth_error.
      * injection Hb0 as <-. rewrite Hc1. now rewrite Nat.add_0_r.
      * rewrite (Hnth j b0 Hb0). now replace (S i + j)%nat with (i + S j)%nat by lia.
    + congruence.
    + eapply collision_effect_trans; eassumption.
Qed.

Lemma damaged_one_health_less (b : Building.t) : one_health_less b (damaged b).
Proof. repeat split. Qed.

Lemma damaged_ok (b : Building.t) : building_ok b -> building_ok (damaged b).
Proof. unfold building_ok. simpl. intros [_ H]. split; [reflexivity | lia]. Qed.

(** X17.  [handleLetterCollision] looks, in the buildings that the callback
    captured, for the first one in index order that stands and whose
    span contains the x of the letter.  If there is one, the building
    at that index of the current buildings loses exactly one point of
    health and every other building is left as it was; if there is
    none, nothing changes at all. *)
Lemma handleLetterCollision_first_hit
  (buildings0 : list Building.t) (letter : Letter.t) (w : World) :
  let w' := exec (handleLetterCollision Math_random buildings0 letter) w in
  ((forall b, In b buildings0 -> ~ standing_under letter b) /\ w' = w)
  \/ exists n target,
       nth_error buildings0 n = Some target
       /\ standing_under letter target
       /\ (forall m b, (m < n)%nat -> nth_error buildings0 m = Some b ->
             ~ standing_under letter b)
       /\ List.length (buildings w') = List.length (buildings w)
       /\ (forall j b, nth_error (buildings w) j = Some b ->
             exists b', nth_error (buildings w') j = Some b'
                        /\ (j = n -> one_health_less b b')
                        /\ (j <> n -> b' = b)).
Proof.
  intros w'. subst w'. unfold handleLetterCollision.
  destruct (findIndex_found (isHit letter) buildings0)
    as [[Hk Hall] | (n & target & Hk & Hn & Hhit & Hfirst)]; rewrite Hk.
  - left. split.
    + intros b Hb Hs. apply isHit_iff in Hs.
      rewrite Forall_forall in Hall. rewrite (Hall b Hb) in Hs. discriminate.
    + reflexivity.
  - right. exists n, target.
    assert (Hne : negb (Z.of_nat n =? -1) = true).
    { apply negb_true_iff, Z.eqb_neq. lia. }
    rewrite Hne.
    split; [exact Hn |]. split; [now apply isHit_iff |]. split.
    { intros m b Hm Hb Hs. apply isHit_iff in Hs.
      rewrite (Hfirst m b Hm Hb) in Hs. discriminate. }
    rewrite exec_setBuildings.
    destruct (mapM_damage (Z.of_nat n) (buildings w) 0 w) as (Hlen & Hnth & _ & _).
    cbn [buildings].
    split; [exact Hlen |].
    intros j b Hb. rewrite (Hnth j b Hb). simpl.
    destruct (Z.of_nat j =? Z.of_nat n) eqn:Hj.
    + apply Z.eqb_eq in Hj. exists (damaged b). repeat split; try lia.
    + apply Z.eqb_neq in Hj. exists b. split; [reflexivity |].
      split; [intros ->; lia | reflexivity].
Qed.

(** *** The invariant of runs *)

Lemma Forall_by_index {A B : Type} (P : A -> Prop) (Q : B -> Prop)
  (g : nat -> A -> B) (l : list A) (l' : list B) :
  List.length l' = List.length l ->
  (forall j a, nth_error l j = Some a -> nth_error l' j = Some (g j a)) ->
  (forall j a, P a -> Q (g j a)) ->
  Forall P l -> Forall Q l'.
Proof.
  intros Hlen Hnth Hg Hl. apply Forall_forall. intros b Hb.
  destruct (In_nth_error _ _ Hb) as [j Hj].
  assert (Hlt : (j < List.length l)%nat).
  { rewrite <- Hlen. apply nth_error_Some. congruence. }
  destruct (nth_error l j) as [a|] eqn:Ha.
  - rewrite (Hnth j a Ha) in Hj. injection Hj as <-.
    apply Hg. rewrite Forall_forall in Hl. apply Hl.
    eapply nth_error_In; eassumption.
  - apply nth_error_None in Ha. lia.
Qed.

Lemma handleLetterCollision_effect
  (buildings0 : list Building.t) (letter : Letter.t) (w : World) :
  collision_effect w (exec (handleLetterCollision Math_random buildings0 letter) w).
Proof.
  unfold handleLetterCollision.
  destruct (negb (findIndex (isHit letter) buildings0 =? -1)).
  - rewrite exec_setBuildings.
    destruct (mapM_damage (findIndex (isHit letter) buildings0) (buildings w) 0 w)
      as (Hlen & Hnth & _ & Heff).
    revert Hlen Hnth Heff.
    generalize (fst (mapM (fun b i =>
                  if Z.of_nat i =? findIndex (isHit letter) buildings0
                  then damage Math_random b else ret b) 0 (buildings w) w)).
    generalize (exec (mapM (fun b i =>
                  if Z.of_nat i =? findIndex (isHit letter) buildings0
                  then damage Math_random b else ret b) 0 (buildings w)) w).
    intros w1 bs Hlen Hnth (Hgs & Hl & Hc & Hp & _ & _).
    unfold collision_effect. cbn.
    split; [exact Hgs |]. repeat split; try assumption.
    intros Hok.
    apply (Forall_by_index building_ok building_ok
             (fun j b => if Z.of_nat (0 + j) =?
                              findIndex (isHit letter) buildings0
                         then damaged b else b) (buildings w) bs);
      try assumption.
    intros j b Hb. destruct (_ =? _); [now apply damaged_ok | exact Hb].
  - apply collision_effect_refl.
Qed.

(** The letters that the game loop keeps, and what resolving the
    impacts of the others does to the world. *)
Lemma filterM_impacts (buildings0 : list Building.t) (ls : list Letter.t) (w : World) :
  fst (filterM (fun letter =>
                  if impacts letter then
                    handleLetterCollision Math_random buildings0 letter ;; ret false
                  else ret true) ls w)
  = filter (fun letter => negb (impacts letter)) ls
  /\ collision_effect w
       (exec (filterM (fun letter =>
                  if impacts letter then
                    handleLetterCollision Math_random buildings0 letter ;; ret false
                  else ret true) ls) w).
Proof.
  revert w. induction ls as [|l ls IH]; intros w; simpl filterM.
  - split; [reflexivity | apply collision_effect_refl].
  - rewrite !fst_bind, !exec_bind, fst_ret, exec_ret. simpl filter.
    destruct (impacts l); simpl negb.
    + rewrite fst_bind, exec_bind, fst_ret, exec_ret.
      destruct (IH (exec (handleLetterCollision Math_random buildings0 l) w))
        as [Hfst Heff].
      split; [exact Hfst |].
      eapply collision_effect_trans; [apply handleLetterCollision_effect | exact Heff].
    + rewrite fst_ret, exec_ret.
      destruct (IH w) as [Hfst Heff].
      split; [now rewrite Hfst | exact Heff].
Qed.

Lemma gameLoop_letters (gs : GameState) (buildings0 : list Building.t) (now : Z)
  (w : World) :
  letters (exec (gameLoop Math_random Math_sin gs buildings0 now) w)
  = filter (fun letter => negb (impacts letter))
           (map (moveLetter Math_sin gs now) (letters w)).
Proof.
  unfold gameLoop. rewrite exec_setLetters. cbn [letters].
  apply filterM_impacts.
Qed.

Lemma gameLoop_effect (gs : GameState) (buildings0 : list Building.t) (now : Z)
  (w : World) :
  only_cityHealth (gameState w)
    (gameState (exec (gameLoop Math_random Math_sin gs buildings0 now) w))
  /\ ((List.length (particles w) <= MAX_PARTICLES)%nat ->
      (List.length (particles (exec (gameLoop Math_random Math_sin gs buildings0 now) w))
       <= MAX_PARTICLES)%nat)
  /\ List.length (buildings (exec (gameLoop Math_random Math_sin gs buildings0 now) w))
     = List.length (buildings w)
  /\ (Forall building_ok (buildings w) ->
      Forall building_ok
        (buildings (exec (gameLoop Math_random Math_sin gs buildings0 now) w))).
Proof.
  unfold gameLoop. rewrite exec_setLetters.
  destruct (filterM_impacts buildings0 (map (moveLetter Math_sin gs now) (letters w)) w)
    as [_ (Hgs & _ & _ & Hp & Hlen & Hok)].
  cbn [gameState particles buildings]. auto.
Qed.

(** *** Keyboard input *)

(** The handler that captured the game state and the letters of [w],
    called on a world [w1] that may have moved on since. *)
Lemma handleKeyPress_no_match_on (w w1 : World) (e_key : string) (now : Z) :
  matchedLetter toUpperCase w e_key = None ->
  exec (handleKeyPress Math_random toUpperCase (gameState w) (letters w) e_key now) w1
  = w1.
Proof.
  unfold matchedLetter, handleKeyPress.
  destruct (running (gameState w)); [| reflexivity]. simpl negb. cbv iota.
  destruct (findIndex _ (letters w) =? -1); [reflexivity |]. simpl negb. cbv iota.
  intros ->. reflexivity.
Qed.

Lemma handleKeyPress_no_match (w : World) (e_key : string) (now : Z) :
  matchedLetter toUpperCase w e_key = None ->
  exec (handleKeyPress Math_random toUpperCase (gameState w) (letters w) e_key now) w = w.
Proof. apply handleKeyPress_no_match_on. Qed.

Lemma keyPress_tail (u : GameState -> GameState)
  (f : list Letter.t -> list Letter.t) (w1 : World) :
  exec armComboTimeout
    (exec (setGameState u) (exec (setLetters (fun prev => ret (f prev))) w1))
  = mkWorld (u (gameState w1)) (buildings w1) (f (letters w1)) (particles w1)
            (shake w1) true (shakeTimeout w1) (draws w1).
Proof. reflexivity. Qed.

Lemma handleKeyPress_match_on
  (w w1 : World) (e_key : string) (now : Z) (letter : Letter.t) :
  matchedLetter toUpperCase w e_key = Some letter ->
  let w' := exec (handleKeyPress Math_random toUpperCase (gameState w) (letters w)
                    e_key now) w1 in
  gameState w' = scoreLetter (gameState w) now letter (gameState w1)
  /\ buildings w' = buildings w1
  /\ letters w'
     = filter_index_neq
         (findIndex (fun l => char_eqb (Letter.char l) (toUpperCase e_key)) (letters w))
         0 (letters w1)
  /\ particles w'
     = firstn MAX_PARTICLES
         (particles w1
          ++ fst (newParticles Math_random (Letter.x letter) (Letter.y letter) w1)).
Proof.
  unfold matchedLetter, handleKeyPress.
  destruct (running (gameState w)); [| discriminate]. simpl negb. cbv iota.
  destruct (findIndex _ (letters w) =? -1); [discriminate |]. simpl negb. cbv iota.
  intros ->. cbv zeta.
  rewrite !exec_bind, keyPress_tail.
  pose proof (createExplosion_cells (Letter.x letter) (Letter.y letter) w1) as H.
  revert H.
  generalize (exec (createExplosion Math_random (Letter.x letter) (Letter.y letter)) w1).
  intros w2 (Hg & Hb & Hl & Hp & _).
  cbn [gameState buildings letters particles].
  rewrite Hg, Hb, Hl, Hp. repeat split.
Qed.

Lemma handleKeyPress_match (w : World) (e_key : string) (now : Z) (letter : Letter.t) :
  matchedLetter toUpperCase w e_key = Some letter ->
  let w' := exec (handleKeyPress Math_random toUpperCase (gameState w) (letters w) e_key now) w in
  gameState w' = scoreLetter (gameState w) now letter (gameState w)
  /\ buildings w' = buildings w
  /\ letters w'
     = filter_index_neq
         (findIndex (fun l => char_eqb (Letter.char l) (toUpperCase e_key)) (letters w))
         0 (letters w)
  /\ particles w'
     = firstn MAX_PARTICLES
         (particles w
          ++ fst (newParticles Math_random (Letter.x letter) (Letter.y letter) w)).
Proof. apply handleKeyPress_match_on. Qed.

(** A key press on the focused play field is two calls of the handler
    of the last render. *)
Lemma keyPressFocused_exec (w : World) (e_key : string) (now now' : Z) :
  step Math_random Math_sin toUpperCase (KeyPressFocused e_key now now') w
  = exec (handleKeyPress Math_random toUpperCase (gameState w) (letters w) e_key now')
      (exec (handleKeyPress Math_random toUpperCase (gameState w) (letters w) e_key now)
         w).
Proof. unfold step. now rewrite exec_bind. Qed.

Lemma filter_index_neq_Forall {A : Type} (P : A -> Prop) (k i : Z) (l : list A) :
  Forall P l -> Forall P (filter_index_neq k i l).
Proof.
  intros H. revert i. induction H as [|a l Ha Hl IH]; intros i; simpl.
  - constructor.
  - destruct (negb (i =? k)); [constructor |]; auto.
Qed.

(** *** Spawning *)

Lemma findM_same_cells {A : Type} (p : A -> React bool) :
  (forall a w, same_cells w (exec (p a) w)) ->
  forall l w, same_cells w (exec (findM p l) w).
Proof.
  intros Hp l. induction l as [|a l IH]; intros w; simpl findM.
  - apply same_cells_refl.
  - rewrite exec_bind. destruct (fst (p a w)).
    + rewrite exec_ret. apply Hp.
    + eapply same_cells_trans; [apply Hp | apply IH].
Qed.

Lemma pickLetterType_same_cells (w : World) :
  same_cells w (exec (pickLetterType Math_random) w).
Proof.
  unfold pickLetterType. rewrite exec_bind, exec_ret.
  apply findM_same_cells. intros a w'. repeat split.
Qed.

Lemma newLetter_same_cells (gs : GameState) (t : LetterType) (now : Z) (w : World) :
  same_cells w (exec (newLetter Math_random gs t now) w).
Proof. repeat split. Qed.

Lemma letterSpeed_pos (gs : GameState) : (0 < letterSpeed gs)%Q.
Proof.
  unfold letterSpeed, INITIAL_LETTER_SPEED.
  apply Qmult_lt_0_compat; [reflexivity | apply Qpower_0_lt; reflexivity].
Qed.

Lemma newLetter_fields (gs : GameState) (t : LetterType) (now : Z) (w : World) :
  Letter.y (fst (newLetter Math_random gs t now w)) = 0%Q
  /\ Letter.type (fst (newLetter Math_random gs t now w)) = t
  /\ (0 < Letter.speed (fst (newLetter Math_random gs t now w)))%Q.
Proof.
  split; [reflexivity | split; [reflexivity |]].
  cbn. apply Qmult_lt_0_compat; [apply letterSpeed_pos |].
  destruct (LetterType_eqb t FAST); reflexivity.
Qed.

Lemma spawnTimer_cells (gs : GameState) (now : Z) (w : World) :
  let w' := exec (spawnTimer Math_random gs now) w in
  gameState w' = gameState w /\ buildings w' = buildings w
  /\ particles w' = particles w
  /\ exists letter,
       letters w' = letters w ++ [letter]
       /\ Letter.y letter = 0%Q /\ (0 < Letter.speed letter)%Q.
Proof.
  unfold spawnTimer. cbv zeta. rewrite exec_bind, exec_setLetters.
  cbn [gameState buildings letters particles].
  rewrite !exec_bind, !fst_bind, exec_ret, fst_ret.
  pose proof (pickLetterType_same_cells w) as H. revert H.
  generalize (fst (pickLetterType Math_random w)).
  generalize (exec (pickLetterType Math_random) w).
  intros w1 t (Hg & Hb & Hl & Hp & _).
  destruct (newLetter_same_cells gs t now w1) as (Hg' & Hb' & _ & Hp' & _).
  destruct (newLetter_fields gs t now w1) as (Hy & _ & Hs).
  rewrite Hg', Hb', Hp', Hg, Hb, Hp, Hl.
  repeat split. eexists. repeat split; eassumption.
Qed.

(** *** Buildings *)

Lemma newBuilding_ok (i : nat) (w : World) :
  building_ok (fst (newBuilding Math_random i w)).
Proof. split; [reflexivity | cbn; lia]. Qed.

Lemma newBuilding_same_cells (i : nat) (w : World) :
  same_cells w (exec (newBuilding Math_random i) w).
Proof. repeat split. Qed.

Lemma freshBuildings (w : World) :
  Forall building_ok (fst (arrayFrom (newBuilding Math_random) 0 BUILDING_COUNT w))
  /\ List.length (fst (arrayFrom (newBuilding Math_random) 0 BUILDING_COUNT w))
     = BUILDING_COUNT
  /\ same_cells w (exec (arrayFrom (newBuilding Math_random) 0 BUILDING_COUNT) w).
Proof.
  split; [| split].
  - apply arrayFrom_Forall, newBuilding_ok.
  - apply arrayFrom_length.
  - apply arrayFrom_same_cells, newBuilding_same_cells.
Qed.

(** *** Every reachable world satisfies the invariant *)

Lemma moved_letters_speed (gs : GameState) (now : Z) (ls : list Letter.t) :
  Forall (fun l => (0 < Letter.speed l)%Q) ls ->
  Forall (fun l => (0 < Letter.speed l)%Q)
         (filter (fun letter => negb (impacts letter))
                 (map (moveLetter Math_sin gs now) ls)).
Proof.
  intros H. apply Forall_forall. intros l Hl.
  apply filter_In in Hl. destruct Hl as [Hl _].
  apply in_map_iff in Hl. destruct Hl as (l0 & <- & Hl0).
  rewrite Forall_forall in H. exact (H l0 Hl0).
Qed.

Lemma Inv_gameLoop (now : Z) (w : World) :
  Inv w -> Inv (exec (gameLoop Math_random Math_sin (gameState w) (buildings w) now) w).
Proof.
  intros (Hover & Hvic & Hlvl & Hcombo & Hcity & Hpart & Hspeed & Hok & Hlen).
  destruct (gameLoop_effect (gameState w) (buildings w) now w)
    as (Hgs & Hp & Hl & Hb).
  pose proof (gameLoop_letters (gameState w) (buildings w) now w) as Hletters.
  destruct Hgs as (_ & Hlvl' & Hcombo' & _ & _ & _ & _ & Hover' & Hvic' & _ & Hcity').
  unfold Inv.
  rewrite Hover', Hvic', Hlvl', Hcombo', Hletters, Hl.
  repeat split; auto; try lia.
  now apply moved_letters_speed.
Qed.

(** What no call of the handler touches. *)
Lemma handleKeyPress_frame (w w1 : World) (e_key : string) (now : Z) :
  let w' := exec (handleKeyPress Math_random toUpperCase (gameState w) (letters w)
                    e_key now) w1 in
  buildings w' = buildings w1
  /\ cityHealth (gameState w') = cityHealth (gameState w1)
  /\ level (gameState w') = level (gameState w1)
  /\ highScore (gameState w') = highScore (gameState w1)
  /\ isActive (gameState w') = isActive (gameState w1)
  /\ gameOver (gameState w') = gameOver (gameState w1)
  /\ victory (gameState w') = victory (gameState w1).
Proof.
  intros w'. subst w'.
  destruct (matchedLetter toUpperCase w e_key) as [letter|] eqn:Hm.
  - destruct (handleKeyPress_match_on w w1 e_key now letter Hm) as (Hgs & Hb & _).
    rewrite Hgs, Hb. repeat split.
  - rewrite (handleKeyPress_no_match_on w w1 e_key now Hm). repeat split.
Qed.

Lemma Inv_keyPress_on (e_key : string) (now : Z) (w w1 : World) :
  0 <= combo (gameState w) -> Inv w1 ->
  Inv (exec (handleKeyPress Math_random toUpperCase (gameState w) (letters w) e_key now)
         w1).
Proof.
  intros Hcombo0 HI. destruct (matchedLetter toUpperCase w e_key) as [letter|] eqn:Hm.
  - destruct HI as (Hover & Hvic & Hlvl & Hcombo & Hcity & Hpart & Hspeed & Hok & Hlen).
    destruct (handleKeyPress_match_on w w1 e_key now letter Hm) as (Hgs & Hb & Hl & Hp).
    unfold Inv. rewrite Hgs, Hb, Hl, Hp. cbn [scoreLetter gameOver victory level combo cityHealth].
    repeat split; auto; try lia.
    + unfold newCombo. destruct (_ <? _); lia.
    + apply firstn_le_length.
    + now apply filter_index_neq_Forall.
  - now rewrite (handleKeyPress_no_match_on w w1 e_key now Hm).
Qed.

Lemma Inv_keyPress (e_key : string) (now : Z) (w : World) :
  Inv w ->
  Inv (exec (handleKeyPress Math_random toUpperCase (gameState w) (letters w) e_key now) w).
Proof. intros HI. apply Inv_keyPress_on; [apply HI | exact HI]. Qed.

Lemma Inv_keyPressFocused (e_key : string) (now now' : Z) (w : World) :
  Inv w ->
  Inv (step Math_random Math_sin toUpperCase (KeyPressFocused e_key now now') w).
Proof.
  intros HI. rewrite keyPressFocused_exec.
  apply Inv_keyPress_on; [apply HI |]. now apply Inv_keyPress.
Qed.

Lemma Inv_spawnTimer (now : Z) (w : World) :
  Inv w -> Inv (exec (spawnTimer Math_random (gameState w) now) w).
Proof.
  intros (Hover & Hvic & Hlvl & Hcombo & Hcity & Hpart & Hspeed & Hok & Hlen).
  destruct (spawnTimer_cells (gameState w) now w)
    as (Hgs & Hb & Hp & letter & Hl & _ & Hs).
  unfold Inv. rewrite Hgs, Hb, Hp, Hl.
  repeat split; auto; try lia.
  apply Forall_app. split; [assumption | constructor; [assumption | constructor]].
Qed.

Lemma resetGame_tail (nb : list Building.t) (w1 : World) :
  exec (setBuildings (fun _ => ret nb)) w1
  = mkWorld (gameState w1) nb (letters w1) (particles w1) (shake w1)
            (comboTimeout w1) (shakeTimeout w1) (draws w1).
Proof. reflexivity. Qed.

Lemma Inv_resetGame (w : World) : Inv w -> Inv (exec (resetGame Math_random) w).
Proof.
  intros _. unfold resetGame. rewrite !exec_bind, resetGame_tail.
  match goal with
  | |- context [arrayFrom _ 0%nat BUILDING_COUNT ?w0] =>
      pose proof (freshBuildings w0) as H; revert H;
      generalize (fst (arrayFrom (newBuilding Math_random) 0 BUILDING_COUNT w0));
      generalize (exec (arrayFrom (newBuilding Math_random) 0 BUILDING_COUNT) w0)
  end.
  intros w1 nb (Hok & Hlen & Hg & _ & Hl & Hp & _).
  unfold Inv. cbn [gameState buildings letters particles].
  rewrite Hg, Hl, Hp. cbn.
  repeat split; auto; try lia.
Qed.

Lemma Inv_mounted : Inv (mounted Math_random).
Proof.
  unfold mounted, initBuildings. rewrite !exec_bind, resetGame_tail.
  pose proof (freshBuildings initialWorld) as H. revert H.
  generalize (fst (arrayFrom (newBuilding Math_random) 0 BUILDING_COUNT initialWorld)).
  generalize (exec (arrayFrom (newBuilding Math_random) 0 BUILDING_COUNT) initialWorld).
  intros w1 nb (Hok & Hlen & Hg & _ & Hl & Hp & _).
  unfold Inv. cbn [gameState buildings letters particles].
  rewrite Hg, Hl, Hp. cbn.
  repeat split; auto; try lia.
Qed.

Lemma Inv_step (e : Event) (w : World) :
  Inv w -> Inv (step Math_random Math_sin toUpperCase e w).
Proof.
  intros HI.
  destruct e as [ | | e_key now | e_key now now' | now | now | | | ];
    [| | | now apply Inv_keyPressFocused | | | | |]; unfold step.
  - unfold startGame. destruct (negb (isActive (gameState w))); [| exact HI].
    destruct HI as (Hover & Hvic & Hlvl & Hcombo & Hcity & Hpart & Hspeed & Hok & Hlen).
    unfold Inv. cbn. repeat split; auto; lia.
  - now apply Inv_resetGame.
  - now apply Inv_keyPress.
  - destruct (running (gameState w)); [now apply Inv_spawnTimer | exact HI].
  - destruct (running (gameState w)); [now apply Inv_gameLoop | exact HI].
  - destruct (particleLoop_enabled w); [| exact HI].
    destruct HI as (Hover & Hvic & Hlvl & Hcombo & Hcity & Hpart & Hspeed & Hok & Hlen).
    unfold Inv. cbn [exec particleLoop setParticles snd gameState buildings letters particles].
    repeat split; auto; try lia. apply firstn_le_length.
  - destruct (comboTimeout w); [| exact HI].
    destruct HI as (Hover & Hvic & Hlvl & Hcombo & Hcity & Hpart & Hspeed & Hok & Hlen).
    unfold Inv. cbn. repeat split; auto; lia.
  - destruct (shakeTimeout w); [| exact HI].
    destruct HI as (Hover & Hvic & Hlvl & Hcombo & Hcity & Hpart & Hspeed & Hok & Hlen).
    unfold Inv. cbn. repeat split; auto; lia.
Qed.

Lemma reachable_Inv (w : World) : reachable Math_random Math_sin toUpperCase w -> Inv w.
Proof.
  induction 1 as [|e w _ IH]; [apply Inv_mounted | now apply Inv_step].
Qed.

(** *** Scoring *)

(** A key press that reaches the handler once (the focus is not on the
    play field) and matches a letter: the combo becomes the previous
    combo plus 1 if less than 1000 ms have passed since
    [lastComboTime] and 1 otherwise; the score grows by the base points
    of the type of the letter times the minimum of that combo and 10;
    and that combo is at least 1. *)
Lemma handleKeyPress_combo_points
  (w : World) (e_key : string) (now : Z) (letter : Letter.t) :
  reachable Math_random Math_sin toUpperCase w ->
  matchedLetter toUpperCase w e_key = Some letter ->
  let w' := step Math_random Math_sin toUpperCase (KeyPress e_key now) w in
  let c := if now - lastComboTime (gameState w) <? 1000
           then combo (gameState w) + 1 else 1 in
  combo (gameState w') = c
  /\ score (gameState w')
     = score (gameState w) + points (Letter.type letter) * Z.min c 10
  /\ lastPoints (gameState w') = points (Letter.type letter) * Z.min c 10
  /\ 1 <= c.
Proof.
  intros Hreach Hm w' c. subst w'. unfold step.
  destruct (handleKeyPress_match w e_key now letter Hm) as (Hgs & _).
  rewrite Hgs. cbn [scoreLetter combo score lastPoints].
  apply reachable_Inv in Hreach.
  destruct Hreach as (_ & _ & _ & Hcombo & _).
  unfold letterPoints, newCombo. fold c.
  repeat split. subst c. destruct (_ <? _); lia.
Qed.

(** *** The cap on live particles, along runs *)

(** C7.  After a tick of the particle loop and after an explosion
    burst, from any world, there are at most [MAX_PARTICLES] live
    particles; and so there are in every world that a run reaches. *)
Theorem particles_never_exceed_cap :
  (forall w, (List.length (particles (exec particleLoop w)) <= MAX_PARTICLES)%nat)
  /\ (forall x y w,
        (List.length (particles (exec (createExplosion Math_random x y) w))
         <= MAX_PARTICLES)%nat)
  /\ (forall w, reachable Math_random Math_sin toUpperCase w ->
        (List.length (particles w) <= MAX_PARTICLES)%nat).
Proof.
  split; [exact particleLoop_capped |]. split; [exact createExplosion_capped |].
  intros w Hreach. apply reachable_Inv in Hreach.
  destruct Hreach as (_ & _ & _ & _ & _ & Hp & _). exact Hp.
Qed.

(** In a world under the cap, the particle loop discards only the
    particles whose life has run out: its own [slice] removes nothing. *)
Lemma particleLoop_drops_only_dead (w : World) :
  (List.length (particles w) <= MAX_PARTICLES)%nat ->
  particles (exec particleLoop w)
  = filter (fun p => Qgtb (Particle.life p) 0) (map updateParticle (particles w)).
Proof.
  intros Hcap. cbn [exec particleLoop setParticles snd particles].
  apply firstn_all2.
  etransitivity; [apply filter_length_le |].
  now rewrite length_map.
Qed.

(** *** Falling letters *)

Lemma same_letter_lower_refl (l : Letter.t) : same_letter_lower l l.
Proof. repeat split. apply Qle_refl. Qed.

Lemma moveLetter_lower (gs : GameState) (now : Z) (l : Letter.t) :
  (0 < Letter.speed l)%Q -> same_letter_lower l (moveLetter Math_sin gs now l).
Proof.
  intros Hs. repeat split. cbn [moveLetter Letter.y].
  destruct (powerUpActive gs); nra.
Qed.

Lemma filter_index_neq_In {A : Type} (k i : Z) (l : list A) (a : A) :
  In a (filter_index_neq k i l) -> In a l.
Proof.
  revert i. induction l as [|b l IH]; intros i; simpl; [tauto |].
  destruct (negb (i =? k)); simpl; intros H.
  - destruct H as [H | H]; [now left | right; eauto].
  - right; eauto.
Qed.

Lemma resetGame_letters (w : World) : letters (exec (resetGame Math_random) w) = [].
Proof.
  unfold resetGame. rewrite !exec_bind, resetGame_tail.
  match goal with
  | |- context [arrayFrom _ 0%nat BUILDING_COUNT ?w0] =>
      pose proof (freshBuildings w0) as H; revert H;
      generalize (exec (arrayFrom (newBuilding Math_random) 0 BUILDING_COUNT) w0)
  end.
  intros w1 (_ & _ & _ & _ & Hl & _). cbn [letters]. rewrite Hl. reflexivity.
Qed.

Lemma same_letter_lower_trans (a b c : Letter.t) :
  same_letter_lower a b -> same_letter_lower b c -> same_letter_lower a c.
Proof.
  intros (H1 & H2 & H3 & H4 & H5 & H6) (K1 & K2 & K3 & K4 & K5 & K6).
  repeat split; try congruence. eapply Qle_trans; eassumption.
Qed.

Lemma fallen_refl (ls : list Letter.t) : fallen ls ls.
Proof.
  induction ls as [|l ls IH]; constructor; [apply same_letter_lower_refl | exact IH].
Qed.

Lemma fallen_all_gone (ls : list Letter.t) : fallen ls [].
Proof. induction ls as [|l ls IH]; constructor; exact IH. Qed.

Lemma fallen_trans (a b : list Letter.t) :
  fallen a b -> forall c, fallen b c -> fallen a c.
Proof.
  induction 1 as [|l l' ls ls' Hl _ IH|l ls ls' _ IH]; intros c Hc.
  - exact Hc.
  - inversion Hc as [|m m' ms ms' Hm Hms|m ms ms' Hms]; subst.
    + constructor; [eapply same_letter_lower_trans; eassumption | now apply IH].
    + apply fallen_drop. now apply IH.
  - apply fallen_drop. now apply IH.
Qed.

Lemma fallen_app_inv (a b : list Letter.t) :
  forall c, fallen (a ++ b) c ->
  exists c1 c2, c = c1 ++ c2 /\ fallen a c1 /\ fallen b c2.
Proof.
  induction a as [|l a IH]; intros c Hc.
  - exists [], c. repeat split; [constructor | exact Hc].
  - simpl in Hc. inversion Hc as [|m m' ms ms' Hm Hms|m ms ms' Hms]; subst.
    + destruct (IH _ Hms) as (c1 & c2 & -> & H1 & H2).
      exists (m' :: c1), c2. repeat split; [now constructor | exact H2].
    + destruct (IH _ Hms) as (c1 & c2 & -> & H1 & H2).
      exists c1, c2. repeat split; [now apply fallen_drop | exact H2].
Qed.

Lemma fallen_length (a b : list Letter.t) :
  fallen a b -> (List.length b <= List.length a)%nat.
Proof. induction 1; simpl; lia. Qed.

Lemma fallen_filter_index_neq (k i : Z) (ls : list Letter.t) :
  fallen ls (filter_index_neq k i ls).
Proof.
  revert i. induction ls as [|l ls IH]; intros i; simpl; [constructor |].
  destruct (negb (i =? k)).
  - constructor; [apply same_letter_lower_refl | apply IH].
  - apply fallen_drop, IH.
Qed.

Lemma fallen_moved (gs : GameState) (now : Z) (ls : list Letter.t) :
  Forall (fun l => (0 < Letter.speed l)%Q) ls ->
  fallen ls (filter (fun l => negb (impacts l)) (map (moveLetter Math_sin gs now) ls)).
Proof.
  induction 1 as [|l ls Hl _ IH]; simpl; [constructor |].
  destruct (negb (impacts (moveLetter Math_sin gs now l))).
  - constructor; [now apply moveLetter_lower | exact IH].
  - apply fallen_drop, IH.
Qed.

(** What one event does to the letters. *)
Lemma step_letters (e : Event) (w : World) :
  Forall (fun l => (0 < Letter.speed l)%Q) (letters w) ->
  exists old fresh,
    letters (step Math_random Math_sin toUpperCase e w) = old ++ fresh
    /\ fallen (letters w) old
    /\ Forall (fun l => Letter.y l = 0%Q) fresh
    /\ (fresh = [] \/ exists now l, e = SpawnTimer now /\ fresh = [l]).
Proof.
  intros Hspeed.
  assert (Hsame : forall w', letters w' = letters w ->
            exists old fresh,
              letters w' = old ++ fresh
              /\ fallen (letters w) old
              /\ Forall (fun l => Letter.y l = 0%Q) fresh
              /\ (fresh = [] \/ exists now l, e = SpawnTimer now /\ fresh = [l])).
  { intros w' Hw'. exists (letters w), []. rewrite Hw', app_nil_r.
    repeat split; [apply fallen_refl | constructor | now left]. }
  assert (Hless : forall ls', fallen (letters w) ls' ->
            exists old fresh,
              ls' = old ++ fresh
              /\ fallen (letters w) old
              /\ Forall (fun l => Letter.y l = 0%Q) fresh
              /\ (fresh = [] \/ exists now l, e = SpawnTimer now /\ fresh = [l])).
  { intros ls' Hls'. exists ls', []. rewrite app_nil_r.
    repeat split; [exact Hls' | constructor | now left]. }
  destruct e as [ | | e_key now | e_key now now' | now | now | | | ].
  - apply Hsame. unfold step, startGame.
    destruct (negb (isActive (gameState w))); reflexivity.
  - apply Hless. unfold step. rewrite resetGame_letters. apply fallen_all_gone.
  - apply Hless. unfold step.
    destruct (matchedLetter toUpperCase w e_key) as [letter|] eqn:Hm.
    + destruct (handleKeyPress_match w e_key now letter Hm) as (_ & _ & Hl & _).
      rewrite Hl. apply fallen_filter_index_neq.
    + rewrite (handleKeyPress_no_match w e_key now Hm). apply fallen_refl.
  - apply Hless. rewrite keyPressFocused_exec.
    destruct (matchedLetter toUpperCase w e_key) as [letter|] eqn:Hm.
    + match goal with
      | |- context [exec ?c2 (exec ?c1 w)] =>
          destruct (handleKeyPress_match_on w (exec c1 w) e_key now' letter Hm)
            as (_ & _ & Hl2 & _)
      end.
      rewrite Hl2.
      destruct (handleKeyPress_match w e_key now letter Hm) as (_ & _ & Hl & _).
      rewrite Hl.
      eapply fallen_trans; apply fallen_filter_index_neq.
    + rewrite !(handleKeyPress_no_match_on w _ e_key _ Hm). apply fallen_refl.
  - unfold step. destruct (running (gameState w)); [| now apply Hsame].
    destruct (spawnTimer_cells (gameState w) now w)
      as (_ & _ & _ & letter & Hl & Hy & _).
    exists (letters w), [letter]. rewrite Hl.
    repeat split; [apply fallen_refl | now constructor |].
    right. now exists now, letter.
  - unfold step. destruct (running (gameState w)); [| now apply Hsame].
    apply Hless. rewrite gameLoop_letters. now apply fallen_moved.
  - apply Hsame. unfold step. destruct (particleLoop_enabled w); reflexivity.
  - apply Hsame. unfold step. destruct (comboTimeout w); reflexivity.
  - apply Hsame. unfold step. destruct (shakeTimeout w); reflexivity.
Qed.

(** C10.  While the game is running, a tick of the game loop moves
    every letter down by exactly its speed, halved when the power-up is
    active, and keeps the moved letters that have not reached the
    ground line; speeds are positive, so the moved letter is lower.
    Whatever happens to the component, the letters afterwards are, in
    order, letters that were there before, each with the same id,
    character, type, x and speed and at the same height or lower,
    followed by at most one new letter, which only the spawn timer
    adds, at y = 0.  The same holds along every run: each letter that
    was on screen at the start is later gone or is where it was or
    lower, and the letters that follow them are at most as many as the
    spawn timer has fired. *)
Theorem letters_only_fall (w : World) :
  reachable Math_random Math_sin toUpperCase w ->
  (forall now, running (gameState w) = true ->
     letters (step Math_random Math_sin toUpperCase (GameLoop now) w)
     = filter (fun l => negb (impacts l))
              (map (moveLetter Math_sin (gameState w) now) (letters w))
     /\ forall l, In l (letters w) ->
          Letter.y (moveLetter Math_sin (gameState w) now l)
          = (Letter.y l
             + Letter.speed l * (if powerUpActive (gameState w) then 0.5 else 1))%Q
          /\ (0 < Letter.speed l)%Q
          /\ same_letter_lower l (moveLetter Math_sin (gameState w) now l))
  /\ (forall e,
        exists old fresh,
          letters (step Math_random Math_sin toUpperCase e w) = old ++ fresh
          /\ fallen (letters w) old
          /\ Forall (fun l => Letter.y l = 0%Q) fresh
          /\ (fresh = [] \/ exists now l, e = SpawnTimer now /\ fresh = [l]))
  /\ (forall es,
        exists old fresh,
          letters (run Math_random Math_sin toUpperCase es w) = old ++ fresh
          /\ fallen (letters w) old
          /\ (List.length fresh <= spawn_firings es)%nat).
Proof.
  intros Hreach. split; [| split].
  - apply reachable_Inv in Hreach.
    destruct Hreach as (_ & _ & _ & _ & _ & _ & Hspeed & _).
    rewrite Forall_forall in Hspeed.
    intros now Hrun. unfold step. rewrite Hrun. split.
    + apply gameLoop_letters.
    + intros l Hl. split; [reflexivity |]. split; [now apply Hspeed |].
      apply moveLetter_lower. now apply Hspeed.
  - intros e. apply step_letters. apply reachable_Inv in Hreach. apply Hreach.
  - intros es. revert w Hreach. induction es as [|e es IH]; intros w Hreach.
    + exists (letters w), []. simpl. rewrite app_nil_r.
      split; [reflexivity |]. split; [apply fallen_refl | apply Nat.le_refl].
    + change (run Math_random Math_sin toUpperCase (e :: es) w)
        with (run Math_random Math_sin toUpperCase es
                (step Math_random Math_sin toUpperCase e w)).
      destruct (IH (step Math_random Math_sin toUpperCase e w))
        as (old1 & fresh1 & Hrun & Hfall1 & Hlen1); [now constructor |].
      destruct (step_letters e w) as (old & fresh & Hstep & Hfall & _ & Hfresh).
      { apply reachable_Inv in Hreach. apply Hreach. }
      rewrite Hstep in Hfall1.
      destruct (fallen_app_inv old fresh old1 Hfall1) as (c1 & c2 & -> & Hc1 & Hc2).
      exists c1, (c2 ++ fresh1). rewrite Hrun, app_assoc.
      split; [reflexivity |]. split; [eapply fallen_trans; eassumption |].
      apply fallen_length in Hc2. rewrite length_app.
      destruct Hfresh as [-> | (now & l & -> & ->)].
      * simpl in Hc2.
        assert (spawn_firings es <= spawn_firings (e :: es))%nat
          by (unfold spawn_firings; simpl; destruct e; simpl; lia).
        lia.
      * change (spawn_firings (SpawnTimer now :: es)) with (S (spawn_firings es)).
        simpl in Hc2. lia.
Qed.

End Properties.

(** ** Runs without two impacts on one building in a tick *)

Section Orderly.

Variable Math_random : nat -> Q.
Variable Math_sin : Q -> Q.
Variable toUpperCase : string -> string.

(** The updater of [handleLetterCollision] as a whole: the buildings
    before the index that is hit and after it are returned as they
    are, and the world changes as [damage] changes it. *)
Lemma mapM_miss (k : Z) (prev : list Building.t) (i : nat) (w : World) :
  (forall j, (j < List.length prev)%nat -> Z.of_nat (i + j) <> k) ->
  fst (mapM (fun b i => if Z.of_nat i =? k then damage Math_random b else ret b)
            i prev w) = prev
  /\ exec (mapM (fun b i => if Z.of_nat i =? k then damage Math_random b else ret b)
                i prev) w = w.
Proof.
  revert i. induction prev as [|b prev IH]; intros i Hmiss; simpl mapM.
  - split; reflexivity.
  - rewrite !fst_bind, !exec_bind.
    assert (Hi : (Z.of_nat i =? k) = false).
    { apply Z.eqb_neq. specialize (Hmiss 0%nat). rewrite Nat.add_0_r in Hmiss.
      apply Hmiss. simpl. lia. }
    rewrite Hi, !fst_ret, !exec_ret.
    destruct (IH (S i)) as [Hfst Hexec].
    + intros j Hj. specialize (Hmiss (S j)).
      replace (S i + j)%nat with (i + S j)%nat by lia. apply Hmiss. simpl. lia.
    + rewrite Hfst, Hexec. split; reflexivity.
Qed.

Lemma mapM_hit (k : Z) (prev : list Building.t) (n i : nat) (b : Building.t)
  (w : World) :
  nth_error prev n = Some b -> k = Z.of_nat (i + n) ->
  fst (mapM (fun b i => if Z.of_nat i =? k then damage Math_random b else ret b)
            i prev w)
  = firstn n prev ++ damaged b :: skipn (S n) prev
  /\ exec (mapM (fun b i => if Z.of_nat i =? k then damage Math_random b else ret b)
                i prev) w
     = exec (damage Math_random b) w.
Proof.
  revert n i w. induction prev as [|b0 prev IH]; intros n i w Hn Hk.
  - destruct n; discriminate.
  - simpl mapM. rewrite !fst_bind, !exec_bind, fst_ret, exec_ret.
    destruct n as [|n]; simpl in Hn.
    + injection Hn as ->. rewrite Nat.add_0_r in Hk.
      assert (Hi : (Z.of_nat i =? k) = true) by (apply Z.eqb_eq; lia).
      rewrite Hi, damage_fst.
      destruct (mapM_miss k prev (S i) (exec (damage Math_random b) w))
        as [Hfst Hexec]; [intros j Hj; lia |].
      rewrite Hfst, Hexec. split; reflexivity.
    + assert (Hi : (Z.of_nat i =? k) = false) by (apply Z.eqb_neq; lia).
      rewrite Hi, fst_ret, exec_ret.
      destruct (IH n (S i) w Hn) as [Hfst Hexec]; [lia |].
      rewrite Hfst, Hexec. split; reflexivity.
Qed.

Lemma damage_gameState (b : Building.t) (w : World) :
  gameState (exec (damage Math_random b) w)
  = if Building.health b - 1 <=? 0 then loseCityHealth (gameState w)
    else gameState w.
Proof.
  rewrite damage_exec. destruct (Building.health b - 1 <=? 0); [| reflexivity].
  rewrite exec_setGameState. cbn [gameState].
  destruct (createExplosion_cells Math_random
              (Building.x b + Building.width b / 2)%Q
              (GAME_HEIGHT - Building.height b / 2)%Q w) as (Hg & _).
  now rewrite Hg.
Qed.

(** The buildings and the game state after one call of
    [handleLetterCollision]. *)
Lemma handleLetterCollision_miss
  (buildings0 : list Building.t) (letter : Letter.t) (w : World) :
  findIndex (isHit letter) buildings0 = -1 ->
  exec (handleLetterCollision Math_random buildings0 letter) w = w.
Proof. unfold handleLetterCollision. intros ->. reflexivity. Qed.

Lemma handleLetterCollision_hit
  (buildings0 : list Building.t) (letter : Letter.t) (w : World)
  (n : nat) (b : Building.t) :
  findIndex (isHit letter) buildings0 = Z.of_nat n ->
  nth_error (buildings w) n = Some b ->
  buildings (exec (handleLetterCollision Math_random buildings0 letter) w)
  = firstn n (buildings w) ++ damaged b :: skipn (S n) (buildings w)
  /\ gameState (exec (handleLetterCollision Math_random buildings0 letter) w)
     = if Building.health b - 1 <=? 0 then loseCityHealth (gameState w)
       else gameState w.
Proof.
  intros Hk Hb. unfold handleLetterCollision. rewrite Hk.
  assert (Hne : negb (Z.of_nat n =? -1) = true)
    by (apply negb_true_iff, Z.eqb_neq; lia).
  rewrite Hne, exec_setBuildings.
  destruct (mapM_hit (Z.of_nat n) (buildings w) n 0 b w Hb eq_refl) as [Hfst Hexec].
  cbn [buildings gameState]. rewrite Hfst, Hexec.
  split; [reflexivity | apply damage_gameState].
Qed.

Lemma destroyedCount_app (l1 l2 : list Building.t) :
  destroyedCount (l1 ++ l2) = destroyedCount l1 + destroyedCount l2.
Proof. unfold destroyedCount. rewrite filter_app, length_app. lia. Qed.

Lemma destroyedCount_cons (b : Building.t) (l : list Building.t) :
  destroyedCount (b :: l)
  = (if Building.destroyed b then 1 else 0) + destroyedCount l.
Proof.
  unfold destroyedCount. simpl. destruct (Building.destroyed b); simpl List.length; lia.
Qed.

Lemma destroyedCount_bounds (l : list Building.t) :
  0 <= destroyedCount l <= Z.of_nat (List.length l).
Proof.
  unfold destroyedCount. pose proof (filter_length_le Building.destroyed l). lia.
Qed.

Lemma nth_error_replaced {A : Type} (l : list A) (n m : nat) (a x : A) :
  nth_error l n = Some a -> m <> n ->
  nth_error (firstn n l ++ x :: skipn (S n) l) m = nth_error l m.
Proof.
  intros Hn Hm.
  rewrite <- (firstn_skipn_middle n l Hn) at 3.
  assert (Hlen : List.length (firstn n l) = n).
  { apply firstn_length_le. apply Nat.lt_le_incl, nth_error_Some. congruence. }
  destruct (Nat.lt_ge_cases m n) as [Hlt | Hge].
  - rewrite !nth_error_app1 by lia. reflexivity.
  - rewrite !nth_error_app2 by lia. rewrite Hlen.
    destruct (m - n)%nat as [|d] eqn:Hd; [lia | reflexivity].
Qed.

(** One impact, resolved against a building that stands in the world
    as it is, keeps the world sound. *)
Lemma Sound_hit (buildings0 : list Building.t) (letter : Letter.t) (w : World)
  (n : nat) (b : Building.t) :
  Sound w ->
  findIndex (isHit letter) buildings0 = Z.of_nat n ->
  nth_error (buildings w) n = Some b ->
  Building.destroyed b = false ->
  Sound (exec (handleLetterCollision Math_random buildings0 letter) w).
Proof.
  intros (Hsound & Hcity & Hlen) Hk Hb Hstands.
  destruct (handleLetterCollision_hit buildings0 letter w n b Hk Hb) as [Hbs Hgs].
  pose proof (firstn_skipn_middle n (buildings w) Hb) as Hsplit.
  assert (Hb_sound : building_sound b).
  { rewrite Forall_forall in Hsound. apply Hsound. eapply nth_error_In, Hb. }
  destruct Hb_sound as [Hflag Hrange]. rewrite Hstands in Hflag.
  symmetry in Hflag. apply Z.eqb_neq in Hflag.
  assert (Hparts : Forall building_sound (firstn n (buildings w))
                   /\ Forall building_sound (skipn (S n) (buildings w))).
  { rewrite <- Hsplit in Hsound. apply Forall_app in Hsound.
    destruct Hsound as [Hfirst Hrest]. split; [exact Hfirst |].
    now inversion Hrest. }
  destruct Hparts as [Hfirst Hrest].
  unfold Sound. rewrite Hbs, Hgs. split; [| split].
  - apply Forall_app. split; [exact Hfirst |]. constructor; [| exact Hrest].
    unfold building_sound. simpl.
    split; [| lia].
    destruct (Building.health b - 1 <=? 0) eqn:Hle;
      [apply Z.leb_le in Hle | apply Z.leb_gt in Hle];
      symmetry; [apply Z.eqb_eq | apply Z.eqb_neq]; lia.
  - rewrite <- Hsplit in Hcity.
    rewrite destroyedCount_app, destroyedCount_cons in Hcity |- *.
    rewrite Hstands in Hcity. simpl Building.destroyed.
    pose proof (destroyedCount_bounds (firstn n (buildings w))) as B1.
    pose proof (destroyedCount_bounds (skipn (S n) (buildings w))) as B2.
    assert (Hl : (List.length (firstn n (buildings w))
                  + S (List.length (skipn (S n) (buildings w))))%nat
                 = BUILDING_COUNT).
    { rewrite <- Hlen. rewrite <- Hsplit at 3. rewrite length_app. reflexivity. }
    unfold BUILDING_COUNT in Hl.
    destruct (Building.health b - 1 <=? 0); cbn [loseCityHealth cityHealth]; lia.
  - rewrite <- Hlen. rewrite <- Hsplit at 3. rewrite !length_app. reflexivity.
Qed.

(** The impacts of one tick, resolved in turn against buildings none of
    which is hit twice, keep the world sound. *)
Lemma collisions_Sound (buildings0 : list Building.t) (ls : list Letter.t) :
  forall w,
    Sound w ->
    NoDup (hits buildings0 ls) ->
    (forall l n, In l ls -> findIndex (isHit l) buildings0 = Z.of_nat n ->
       nth_error (buildings w) n = nth_error buildings0 n) ->
    Sound (fold_left
             (fun w l => exec (handleLetterCollision Math_random buildings0 l) w)
             ls w).
Proof.
  induction ls as [|l ls IH]; intros w Hs Hnodup Hagree; simpl fold_left.
  - exact Hs.
  - destruct (findIndex_found (isHit l) buildings0)
      as [[Hk _] | (n & target & Hk & Hn & Hhit & _)].
    + rewrite (handleLetterCollision_miss buildings0 l w Hk).
      apply IH; [exact Hs | |].
      * unfold hits in *. simpl in Hnodup. rewrite Hk in Hnodup. exact Hnodup.
      * intros l' n' Hl'. apply Hagree. now right.
    + assert (Hlive : nth_error (buildings w) n = Some target).
      { rewrite (Hagree l n (or_introl eq_refl) Hk). exact Hn. }
      assert (Hstands : Building.destroyed target = false).
      { apply isHit_iff in Hhit. apply Hhit. }
      unfold hits in Hnodup. simpl in Hnodup. rewrite Hk in Hnodup.
      replace (negb (Z.of_nat n =? -1)) with true in Hnodup
        by (symmetry; apply negb_true_iff, Z.eqb_neq; lia).
      inversion Hnodup as [|k ks Hnotin Hnodup' Heq]. subst k ks.
      apply IH.
      * now apply (Sound_hit buildings0 l w n target).
      * exact Hnodup'.
      * intros l' n' Hl' Hk'.
        destruct (handleLetterCollision_hit buildings0 l w n target Hk Hlive)
          as [Hbs _].
        rewrite Hbs. rewrite (nth_error_replaced _ n n' target _ Hlive).
        -- apply (Hagree l' n'); [now right | exact Hk'].
        -- intros ->. apply Hnotin. apply filter_In. split.
           ++ apply in_map_iff. exists l'. split; [exact Hk' | exact Hl'].
           ++ apply negb_true_iff, Z.eqb_neq. lia.
Qed.

(** The world after the game loop, letters apart, is the world after
    resolving the impacts in the order of the letters. *)
Lemma filterM_collisions (buildings0 : list Building.t) (ls : list Letter.t) :
  forall w,
    exec (filterM (fun letter =>
                     if impacts letter then
                       handleLetterCollision Math_random buildings0 letter ;; ret false
                     else ret true) ls) w
    = fold_left
        (fun w l => exec (handleLetterCollision Math_random buildings0 l) w)
        (filter impacts ls) w.
Proof.
  induction ls as [|l ls IH]; intros w; simpl filterM; simpl filter.
  - reflexivity.
  - rewrite !exec_bind, exec_ret. destruct (impacts l).
    + rewrite exec_bind, exec_ret. simpl fold_left. apply IH.
    + rewrite exec_ret. apply IH.
Qed.

Lemma Sound_gameLoop (now : Z) (w : World) :
  Sound w ->
  NoDup (hits (buildings w) (impacting Math_sin now w)) ->
  Sound (exec (gameLoop Math_random Math_sin (gameState w) (buildings w) now) w).
Proof.
  intros Hs Hnodup. unfold gameLoop. rewrite exec_setLetters.
  rewrite filterM_collisions.
  pose proof (collisions_Sound (buildings w) (impacting Math_sin now w) w Hs Hnodup
                (fun _ _ _ _ => eq_refl)) as H.
  unfold impacting in H. unfold Sound in *. cbn [gameState buildings]. exact H.
Qed.

Lemma newBuilding_sound (i : nat) (w : World) :
  building_sound (fst (newBuilding Math_random i w))
  /\ Building.destroyed (fst (newBuilding Math_random i w)) = false.
Proof. split; [split; [reflexivity | cbn; lia] | reflexivity]. Qed.

Lemma standing_count (bs : list Building.t) :
  Forall (fun b => building_sound b /\ Building.destroyed b = false) bs ->
  Forall building_sound bs /\ destroyedCount bs = 0.
Proof.
  induction 1 as [|b bs [Hb Hd] _ [IH1 IH2]].
  - split; [constructor | reflexivity].
  - split; [now constructor |]. rewrite destroyedCount_cons, Hd, IH2. reflexivity.
Qed.

Lemma Sound_fresh (w0 : World) :
  cityHealth (gameState w0) = 100 ->
  Sound (exec (setBuildings (fun _ =>
                 ret (fst (arrayFrom (newBuilding Math_random) 0 BUILDING_COUNT w0))))
              (exec (arrayFrom (newBuilding Math_random) 0 BUILDING_COUNT) w0)).
Proof.
  intros Hcity. rewrite resetGame_tail.
  pose proof (arrayFrom_Forall
                (fun b => building_sound b /\ Building.destroyed b = false)
                (newBuilding Math_random) newBuilding_sound
                BUILDING_COUNT 0 w0) as Hall.
  pose proof (arrayFrom_length (newBuilding Math_random) BUILDING_COUNT 0 w0) as Hlen.
  pose proof (arrayFrom_same_cells (newBuilding Math_random)
                (newBuilding_same_cells Math_random) BUILDING_COUNT 0 w0) as Hsame.
  revert Hall Hlen Hsame.
  generalize (fst (arrayFrom (newBuilding Math_random) 0 BUILDING_COUNT w0)).
  generalize (exec (arrayFrom (newBuilding Math_random) 0 BUILDING_COUNT) w0).
  intros w1 nb Hall Hlen (Hg & _).
  apply standing_count in Hall. destruct Hall as [Hsound Hcount].
  unfold Sound. cbn [gameState buildings].
  rewrite Hg, Hcity, Hcount. repeat split; auto.
Qed.

Lemma Sound_resetGame (w : World) : Sound (exec (resetGame Math_random) w).
Proof.
  unfold resetGame. rewrite !exec_bind.
  apply Sound_fresh. reflexivity.
Qed.

Lemma Sound_mounted : Sound (mounted Math_random).
Proof.
  unfold mounted, initBuildings. rewrite !exec_bind.
  apply Sound_fresh. reflexivity.
Qed.

Lemma Sound_step (e : Event) (w : World) :
  Sound w -> one_hit_per_building Math_sin e w ->
  Sound (step Math_random Math_sin toUpperCase e w).
Proof.
  intros Hs Hone.
  destruct e as [ | | e_key now | e_key now now' | now | now | | | ]; unfold step.
  - unfold startGame. destruct (negb (isActive (gameState w))); exact Hs.
  - apply Sound_resetGame.
  - destruct (handleKeyPress_frame Math_random toUpperCase w w e_key now)
      as (Hb & Hc & _).
    unfold Sound in *. rewrite Hb, Hc. exact Hs.
  - rewrite exec_bind.
    match goal with
    | |- Sound (exec ?c2 (exec ?c1 w)) =>
        destruct (handleKeyPress_frame Math_random toUpperCase w (exec c1 w) e_key now')
          as (Hb' & Hc' & _)
    end.
    destruct (handleKeyPress_frame Math_random toUpperCase w w e_key now)
      as (Hb & Hc & _).
    unfold Sound in *. rewrite Hb', Hc', Hb, Hc. exact Hs.
  - destruct (running (gameState w)); [| exact Hs].
    destruct (spawnTimer_cells Math_random (gameState w) now w) as (Hgs & Hb & _).
    unfold Sound in *. rewrite Hgs, Hb. exact Hs.
  - destruct (running (gameState w)); [| exact Hs].
    now apply Sound_gameLoop.
  - destruct (particleLoop_enabled w); exact Hs.
  - destruct (comboTimeout w); exact Hs.
  - destruct (shakeTimeout w); exact Hs.
Qed.

Lemma orderly_Sound (w : World) : orderly Math_random Math_sin toUpperCase w -> Sound w.
Proof.
  induction 1 as [|e w _ IH Hone]; [apply Sound_mounted | now apply Sound_step].
Qed.

(** X18.  On the runs in which no tick of the game loop resolves two
    impacts against the same building, city health stays at 20 or
    more, no health is negative, and a building is flagged destroyed
    exactly when its health is 0. *)
Lemma orderly_cityHealth_and_health (w : World) :
  orderly Math_random Math_sin toUpperCase w ->
  20 <= cityHealth (gameState w)
  /\ Forall (fun b => 0 <= Building.health b
                      /\ (Building.destroyed b = true <-> Building.health b = 0))
            (buildings w).
Proof.
  intros H. apply orderly_Sound in H. destruct H as (Hsound & Hcity & Hlen).
  split.
  - pose proof (destroyedCount_bounds (buildings w)) as B.
    rewrite Hlen in B. unfold BUILDING_COUNT in B. lia.
  - apply Forall_forall. intros b Hb. rewrite Forall_forall in Hsound.
    destruct (Hsound b Hb) as [Hflag Hrange]. split; [lia |].
    rewrite Hflag. apply Z.eqb_eq.
Qed.

Lemma nodupb_NoDup (l : list Z) : nodupb l = true -> NoDup l.
Proof.
  induction l as [|k l IH]; simpl; intros H; constructor.
  - apply andb_true_iff in H. destruct H as [H _].
    apply negb_true_iff in H. intros Hin.
    assert (Hex : existsb (Z.eqb k) l = true).
    { apply existsb_exists. exists k. split; [exact Hin | apply Z.eqb_refl]. }
    congruence.
  - apply IH. apply andb_true_iff in H. apply H.
Qed.

Lemma orderly_run_orderly (es : list Event) :
  forall w,
    orderly Math_random Math_sin toUpperCase w ->
    orderly_run Math_random Math_sin toUpperCase es w = true ->
    orderly Math_random Math_sin toUpperCase (run Math_random Math_sin toUpperCase es w).
Proof.
  induction es as [|e es IH]; intros w Hw Hrun; simpl in *.
  - exact Hw.
  - apply andb_true_iff in Hrun. destruct Hrun as [He Hes].
    apply IH; [| exact Hes]. constructor; [exact Hw |].
    destruct e; simpl in *; try exact I. now apply nodupb_NoDup.
Qed.

End Orderly.

(** ** Runs *)

Lemma run_reachable (Math_random : nat -> Q) (Math_sin : Q -> Q)
  (toUpperCase : string -> string)
  (es : list Event) (w : World) :
  reachable Math_random Math_sin toUpperCase w ->
  reachable Math_random Math_sin toUpperCase (run Math_random Math_sin toUpperCase es w).
Proof.
  revert w. induction es as [|e es IH]; intros w Hw; simpl.
  - exact Hw.
  - apply IH. now constructor.
Qed.

(** No run ever sets [gameOver] or [victory]. *)
Lemma gameOver_never (Math_random : nat -> Q) (Math_sin : Q -> Q)
  (toUpperCase : string -> string) (w : World) :
  reachable Math_random Math_sin toUpperCase w -> gameOver (gameState w) = false.
Proof. intros H. apply reachable_Inv in H. apply H. Qed.

Lemma victory_never (Math_random : nat -> Q) (Math_sin : Q -> Q)
  (toUpperCase : string -> string) (w : World) :
  reachable Math_random Math_sin toUpperCase w -> victory (gameState w) = false.
Proof. intros H. apply reachable_Inv in H. apply H. Qed.

(** City health stays between 0 and 100, and the flag [destroyed] of a
    building always agrees with [health <= 0]. *)
Lemma cityHealth_bounds (Math_random : nat -> Q) (Math_sin : Q -> Q)
  (toUpperCase : string -> string) (w : World) :
  reachable Math_random Math_sin toUpperCase w -> 0 <= cityHealth (gameState w) <= 100.
Proof. intros H. apply reachable_Inv in H. apply H. Qed.

Lemma destroyed_iff_no_health (Math_random : nat -> Q) (Math_sin : Q -> Q)
  (toUpperCase : string -> string) (w : World) :
  reachable Math_random Math_sin toUpperCase w ->
  Forall (fun b => Building.destroyed b = (Building.health b <=? 0)
                   /\ Building.health b <= 3) (buildings w).
Proof. intros H. apply reachable_Inv in H. apply H. Qed.

(** ** The oracles are in range *)

Lemma steady_range : forall n, (0 <= steady n /\ steady n < 1)%Q.
Proof. intros n. unfold steady, Qle, Qlt. simpl. split; lia. Qed.

Lemma ramp_range : forall n, (0 <= ramp n /\ ramp n < 1)%Q.
Proof.
  intros n. unfold ramp, Qle, Qlt. simpl. split; lia.
Qed.

Lemma first_letter_reachable : reachable steady no_sin toUpperCase_ASCII first_letter.
Proof. apply run_reachable. constructor. Qed.

Lemma after_volley_reachable (n : nat) : reachable steady no_sin toUpperCase_ASCII (after_volley n).
Proof. apply run_reachable. constructor. Qed.

Lemma after_typist_reachable (n : nat) : reachable steady no_sin toUpperCase_ASCII (after_typist n).
Proof. apply run_reachable. constructor. Qed.

(** ** Explosion bursts, on concrete draws *)



(** ** The cap, on concrete worlds *)

(** A third burst on 40 live particles: all 40 are kept and only the
    first 10 of the 20 fresh particles; the result is not the last 50
    of the 60. *)
Lemma third_burst_drops_newest :
  let prev := particles two_bursts in
  let fresh := fst (newParticles ramp 1 1 two_bursts) in
  let after := particles (exec (createExplosion ramp 1 1) two_bursts) in
  List.length prev = 40%nat /\ List.length fresh = 20%nat
  /\ after = prev ++ firstn 10 fresh
  /\ after <> skipn 10 (prev ++ fresh).
Proof.
  vm_compute. repeat split. intros H. discriminate H.
Qed.

Lemma createExplosion_keeps_oldest_witness :
  nth_error (particles (exec (createExplosion ramp 1 1) two_bursts)) 39
  = nth_error (particles two_bursts) 39
  /\ nth_error (particles (exec (createExplosion ramp 1 1) two_bursts))
               (List.length (particles two_bursts) + 10) = None.
Proof.
  destruct (createExplosion_keeps_oldest ramp 1 1 two_bursts) as (_ & Hold & Hnew).
  split.
  - destruct (nth_error (particles two_bursts) 39) as [p|] eqn:Hp.
    + apply Hold; [unfold MAX_PARTICLES; lia | exact Hp].
    + vm_compute in Hp. discriminate Hp.
  - destruct (nth_error (fst (newParticles ramp 1 1 two_bursts)) 10) as [p|] eqn:Hp.
    + apply (Hnew 10%nat p Hp). vm_compute. lia.
    + vm_compute in Hp. discriminate Hp.
Defined.

Lemma particles_never_exceed_cap_witness :
  (List.length (particles (after_typist 3)) <= MAX_PARTICLES)%nat.
Proof.
  apply (proj2 (proj2 (particles_never_exceed_cap steady no_sin toUpperCase_ASCII))).
  apply after_typist_reachable.
Defined.

(** ** Collision resolution, on a concrete impact *)

(** The first impact above the first building takes its health from 3
    to 2. *)
Lemma handleLetterCollision_first_hit_example :
  exists b',
    nth_error (buildings (exec (handleLetterCollision steady
                                  (buildings (mounted steady)) landed_A)
                               (mounted steady))) 0 = Some b'
    /\ Building.health b' = 2.
Proof.
  destruct (nth_error (buildings (mounted steady)) 0) as [b0|] eqn:Hb0;
    [| vm_compute in Hb0; discriminate Hb0].
  assert (Hunder : standing_under landed_A b0 /\ Building.health b0 = 3).
  { vm_compute in Hb0. injection Hb0 as <-.
    unfold standing_under, Qle. simpl. repeat split; lia. }
  destruct Hunder as [Hunder Hh].
  destruct (handleLetterCollision_first_hit steady (buildings (mounted steady))
              landed_A (mounted steady))
    as [[Hnone _] | (n & target & Hn & Hs & Hfirst & Hlen & Hall)].
  - exfalso. apply (Hnone b0); [| exact Hunder].
    eapply nth_error_In. exact Hb0.
  - destruct n as [|n].
    + destruct (Hall 0%nat b0 Hb0) as (b' & Hb' & Hless & _).
      exists b'. split; [exact Hb' |].
      destruct (Hless eq_refl) as (Hhealth & _). rewrite Hhealth, Hh. reflexivity.
    + exfalso. apply (Hfirst 0%nat b0); [lia | exact Hb0 | exact Hunder].
Defined.

(** ** Scoring, on a concrete key press *)

Lemma handleKeyPress_combo_points_witness :
  score (gameState (step steady no_sin toUpperCase_ASCII
                      (KeyPress "a" 1700000000500) first_letter)) = 100
  /\ combo (gameState (step steady no_sin toUpperCase_ASCII
                         (KeyPress "a" 1700000000500) first_letter)) = 1.
Proof.
  destruct (matchedLetter toUpperCase_ASCII first_letter "a") as [l|] eqn:Hm;
    [| vm_compute in Hm; discriminate Hm].
  destruct (handleKeyPress_combo_points steady no_sin toUpperCase_ASCII first_letter "a"
              1700000000500 l first_letter_reachable Hm) as (Hc & Hs & _).
  rewrite Hs, Hc.
  assert (Ht : Letter.type l = NORMAL).
  { vm_compute in Hm. injection Hm as <-. reflexivity. }
  rewrite Ht. vm_compute. split; reflexivity.
Defined.

(** C5, as the code behaves.  One key press on the focused play field,
    in a game with score 0 and no combo in which the one letter on
    screen is a NORMAL "A".  The press reaches [handleKeyPress] twice,
    and the second call runs on what the first one captured: both
    calls find the letter, both compute the combo 1 and the points 100
    from the captured state, and both updaters add their points.  The
    one match has added 200 to the score, twice the base points times
    the combo, and the combo is 1 after the second call, not the
    previous combo plus 1. *)
Theorem focused_key_press_scores_twice :
  reachable steady no_sin toUpperCase_ASCII focused_press
  /\ letters first_letter = [first_A]
  /\ Letter.type first_A = NORMAL
  /\ score (gameState first_letter) = 0
  /\ combo (gameState first_letter) = 0
  /\ score (gameState focused_press) = 200
  /\ combo (gameState focused_press) = 1
  /\ lastPoints (gameState focused_press) = 100
  /\ letters focused_press = [].
Proof.
  split; [constructor; apply first_letter_reachable |].
  vm_compute. repeat split; reflexivity.
Qed.

(** ** Falling letters, on a concrete tick *)

Lemma letters_only_fall_witness :
  letters (step steady no_sin toUpperCase_ASCII (GameLoop 1700000000016) first_letter)
  = filter (fun l => negb (impacts l))
           (map (moveLetter no_sin (gameState first_letter) 1700000000016)
                (letters first_letter)).
Proof.
  destruct (letters_only_fall steady no_sin toUpperCase_ASCII first_letter first_letter_reachable)
    as [Htick _].
  apply Htick. vm_compute. reflexivity.
Defined.

(** ** Runs on which the transitions of the specification fail *)

Lemma outcome_gameState (w : World) (gs : GameState) (hs : list Z) (ds : list bool) :
  outcome w = (gs, hs, ds) -> gameState w = gs.
Proof. unfold outcome. intros H. now injection H. Qed.

Lemma outcome_health (w : World) (gs : GameState) (hs : list Z) (ds : list bool) :
  outcome w = (gs, hs, ds) -> map Building.health (buildings w) = hs.
Proof. unfold outcome. intros H. now injection H. Qed.

(** C9, as the code behaves.  After a volley of four letters above the
    first building, which all reach the ground line on the same tick,
    the health of that building is -1: the fourth impact was resolved
    against a building that the third had already destroyed, and city
    health was lowered twice. *)
Lemma volley_drives_health_below_zero :
  reachable steady no_sin toUpperCase_ASCII (after_volley 4)
  /\ outcome (after_volley 4)
     = ({| score := 0; level := 1; combo := 0; cityHealth := 80; highScore := 0;
           lastComboTime := 0; lastPoints := 0; isActive := true;
           gameOver := false; victory := false; powerUpActive := false |},
        [-1; 3; 3; 3; 3; 3; 3; 3],
        [true; false; false; false; false; false; false; false]).
Proof.
  split; [apply after_volley_reachable |]. vm_compute. reflexivity.
Qed.

(** The outcome of a volley of twelve letters above the first building. *)
Lemma after_volley_12 :
  outcome (after_volley 12)
  = ({| score := 0; level := 1; combo := 0; cityHealth := 0; highScore := 0;
        lastComboTime := 0; lastPoints := 0; isActive := true;
        gameOver := false; victory := false; powerUpActive := false |},
     [-9; 3; 3; 3; 3; 3; 3; 3],
     [true; false; false; false; false; false; false; false]).
Proof. vm_compute. reflexivity. Qed.

(** C3, as the code behaves.  With one building hit twelve times on
    one tick and the seven others intact, city health is below 20. *)
Lemma volley_drives_cityHealth_below_20 :
  reachable steady no_sin toUpperCase_ASCII (after_volley 12)
  /\ cityHealth (gameState (after_volley 12)) < 20
  /\ map Building.health (buildings (after_volley 12)) = [-9; 3; 3; 3; 3; 3; 3; 3].
Proof.
  split; [apply after_volley_reachable |].
  rewrite (outcome_gameState _ _ _ _ after_volley_12).
  rewrite (outcome_health _ _ _ _ after_volley_12).
  split; reflexivity.
Qed.

(** C1, as the code behaves.  City health is 0 and the game is still
    running: [gameOver] is false and the effects guarded by [running]
    stay installed. *)
Lemma cityHealth_zero_without_gameOver :
  reachable steady no_sin toUpperCase_ASCII (after_volley 12)
  /\ cityHealth (gameState (after_volley 12)) = 0
  /\ gameOver (gameState (after_volley 12)) = false
  /\ running (gameState (after_volley 12)) = true.
Proof.
  split; [apply after_volley_reachable |].
  rewrite (outcome_gameState _ _ _ _ after_volley_12).
  repeat split.
Qed.

(** C2, as the code behaves.  After a hundred letters typed, the score
    is 10000, [victory] is false, no letter is on screen, and the next
    firing of the spawn timer adds one. *)
Lemma target_score_without_victory :
  reachable steady no_sin toUpperCase_ASCII (after_typist 100)
  /\ let w := after_typist 100 in
     (score (gameState w), TARGET_SCORE <=? score (gameState w),
      victory (gameState w), List.length (letters w),
      List.length (letters (step steady no_sin toUpperCase_ASCII (SpawnTimer 1700000200000) w)))
     = (10000, true, false, 0%nat, 1%nat).
Proof.
  split; [apply after_typist_reachable |]. vm_compute. reflexivity.
Qed.

(** C4, as the code behaves.  Within one tick the impacts are resolved
    against the buildings that the game loop captured.  After three
    impacts above the first building no standing building spans x = 20
    any more, yet the fourth impact is not a miss: it takes the health
    of the destroyed building from 0 to -1, lowers city health by
    another 10 and adds a second burst of 20 particles. *)
Lemma fourth_impact_hits_destroyed_building :
  forallb (fun b => negb (isHit landed_A b)) (buildings three_impacts) = true
  /\ (outcome three_impacts, List.length (particles three_impacts))
     = (({| score := 0; level := 1; combo := 0; cityHealth := 90; highScore := 0;
            lastComboTime := 0; lastPoints := 0; isActive := false;
            gameOver := false; victory := false; powerUpActive := false |},
         [0; 3; 3; 3; 3; 3; 3; 3],
         [true; false; false; false; false; false; false; false]), 20%nat)
  /\ (outcome fourth_impact, List.length (particles fourth_impact))
     = (({| score := 0; level := 1; combo := 0; cityHealth := 80; highScore := 0;
            lastComboTime := 0; lastPoints := 0; isActive := false;
            gameOver := false; victory := false; powerUpActive := false |},
         [-1; 3; 3; 3; 3; 3; 3; 3],
         [true; false; false; false; false; false; false; false]), 40%nat).
Proof. vm_compute. repeat split. Qed.

(** ** A run in single file *)

(** Three impacts on the first building on three successive ticks:
    the building is destroyed with health 0, city health falls by 10
    once, and one burst of 20 particles is live. *)
Lemma single_file_outcome :
  let w := run steady no_sin toUpperCase_ASCII single_file (mounted steady) in
  (orderly_run steady no_sin toUpperCase_ASCII single_file (mounted steady),
   outcome w, List.length (particles w))
  = (true,
     ({| score := 0; level := 1; combo := 0; cityHealth := 90; highScore := 0;
         lastComboTime := 0; lastPoints := 0; isActive := true;
         gameOver := false; victory := false; powerUpActive := false |},
      [0; 3; 3; 3; 3; 3; 3; 3],
      [true; false; false; false; false; false; false; false]),
     20%nat).
Proof. vm_compute. reflexivity. Qed.

Lemma triple_first {A B C : Type} (a x : A) (b y : B) (c z : C) :
  (a, b, c) = (x, y, z) -> a = x.
Proof. intros H. now injection H. Qed.

Lemma single_file_orderly :
  orderly steady no_sin toUpperCase_ASCII
    (run steady no_sin toUpperCase_ASCII single_file (mounted steady)).
Proof.
  apply orderly_run_orderly; [constructor |].
  exact (triple_first _ _ _ _ _ _ single_file_outcome).
Qed.

(** So the bounds of the orderly runs apply to it. *)
Lemma single_file_cityHealth :
  20 <= cityHealth (gameState (run steady no_sin toUpperCase_ASCII single_file (mounted steady))).
Proof.
  apply (orderly_cityHealth_and_health steady no_sin toUpperCase_ASCII). apply single_file_orderly.
Defined.

(** * Further properties of the code *)

Lemma Forall_firstn {A : Type} (P : A -> Prop) (n : nat) (l : list A) :
  Forall P l -> Forall P (firstn n l).
Proof.
  intros H. revert n. induction H as [|a l Ha _ IH]; intros [|n]; simpl;
    constructor; auto.
Qed.

Lemma Forall_filter {A : Type} (P : A -> Prop) (f : A -> bool) (l : list A) :
  Forall P l -> Forall P (filter f l).
Proof.
  intros H. apply Forall_forall. intros a Ha. apply filter_In in Ha.
  rewrite Forall_forall in H. now apply H.
Qed.

(** Projections of the world after a setter, as rewriting rules. *)
Lemma particles_setGameState (u : GameState -> GameState) (w : World) :
  particles (exec (setGameState u) w) = particles w.
Proof. reflexivity. Qed.

Lemma buildings_setBuildings (u : list Building.t -> React (list Building.t))
  (w : World) :
  buildings (exec (setBuildings u) w) = fst (u (buildings w) w).
Proof. now rewrite exec_setBuildings. Qed.

Lemma particles_setBuildings (u : list Building.t -> React (list Building.t))
  (w : World) :
  particles (exec (setBuildings u) w) = particles (exec (u (buildings w)) w).
Proof. now rewrite exec_setBuildings. Qed.

Lemma gameState_setBuildings (u : list Building.t -> React (list Building.t))
  (w : World) :
  gameState (exec (setBuildings u) w) = gameState (exec (u (buildings w)) w).
Proof. now rewrite exec_setBuildings. Qed.

Lemma buildings_setLetters (u : list Letter.t -> React (list Letter.t)) (w : World) :
  buildings (exec (setLetters u) w) = buildings (exec (u (letters w)) w).
Proof. now rewrite exec_setLetters. Qed.

Lemma particles_setLetters (u : list Letter.t -> React (list Letter.t)) (w : World) :
  particles (exec (setLetters u) w) = particles (exec (u (letters w)) w).
Proof. now rewrite exec_setLetters. Qed.

Lemma gameState_setLetters (u : list Letter.t -> React (list Letter.t)) (w : World) :
  gameState (exec (setLetters u) w) = gameState (exec (u (letters w)) w).
Proof. now rewrite exec_setLetters. Qed.

Lemma letters_setLetters (u : list Letter.t -> React (list Letter.t)) (w : World) :
  letters (exec (setLetters u) w) = fst (u (letters w) w).
Proof. now rewrite exec_setLetters. Qed.

Section Board.

Variable Math_random : nat -> Q.
Hypothesis Math_random_range : forall n, (0 <= Math_random n /\ Math_random n < 1)%Q.
Variable Math_sin : Q -> Q.
Variable toUpperCase : string -> string.

(** ** Buildings *)

Lemma arrayFrom_by_index {A : Type} (P : nat -> A -> Prop) (f : nat -> React A) :
  (forall i w, P i (fst (f i w))) ->
  forall n i w j a,
    nth_error (fst (arrayFrom f i n w)) j = Some a -> P (i + j)%nat a.
Proof.
  intros Hf n. induction n as [|n IH]; intros i w j a; simpl arrayFrom.
  - rewrite fst_ret. destruct j; discriminate.
  - rewrite !fst_bind, fst_ret. destruct j as [|j]; simpl nth_error.
    + intros H. injection H as <-. rewrite Nat.add_0_r. apply Hf.
    + intros H. replace (i + S j)%nat with (S i + j)%nat by lia.
      eapply IH. exact H.
Qed.

Lemma newBuilding_at (i : nat) (w : World) :
  building_at i (fst (newBuilding Math_random i w))
  /\ Building.health (fst (newBuilding Math_random i w)) = 3
  /\ Building.destroyed (fst (newBuilding Math_random i w)) = false.
Proof.
  pose proof (Math_random_range (draws w)) as H0.
  pose proof (Math_random_range (S (draws w))) as H1.
  unfold building_at. cbn.
  repeat split; try lra.
  unfold GAME_WIDTH, BUILDING_COUNT. simpl. field.
Qed.

Lemma fresh_buildings (w : World) :
  laid_out (fst (arrayFrom (newBuilding Math_random) 0 BUILDING_COUNT w))
  /\ Forall (fun b => Building.health b = 3 /\ Building.destroyed b = false)
            (fst (arrayFrom (newBuilding Math_random) 0 BUILDING_COUNT w)).
Proof.
  split; [split |].
  - apply arrayFrom_length.
  - intros i b Hb.
    apply (arrayFrom_by_index building_at (newBuilding Math_random)
             (fun i w => proj1 (newBuilding_at i w)) BUILDING_COUNT 0 w i b Hb).
  - apply arrayFrom_Forall. intros i w'. apply newBuilding_at.
Qed.

Lemma damaged_at (i : nat) (b : Building.t) :
  building_at i b -> building_at i (damaged b).
Proof. intros H. exact H. Qed.

Lemma handleLetterCollision_laid_out
  (buildings0 : list Building.t) (letter : Letter.t) (w : World) :
  laid_out (buildings w) ->
  laid_out (buildings (exec (handleLetterCollision Math_random buildings0 letter) w)).
Proof.
  intros [Hlen Hat]. unfold handleLetterCollision.
  destruct (negb (findIndex (isHit letter) buildings0 =? -1)); [| now split].
  rewrite buildings_setBuildings.
  destruct (mapM_damage Math_random (findIndex (isHit letter) buildings0)
              (buildings w) 0 w) as (Hlen' & Hnth & _ & _).
  revert Hlen' Hnth.
  generalize (fst (mapM (fun b i =>
                if Z.of_nat i =? findIndex (isHit letter) buildings0
                then damage Math_random b else ret b) 0 (buildings w) w)).
  intros bs Hlen' Hnth. split; [congruence |].
  intros i b' Hb'.
  destruct (nth_error (buildings w) i) as [b|] eqn:Hb.
  - rewrite (Hnth i b Hb) in Hb'. injection Hb' as <-.
    destruct (_ =? _); [apply damaged_at |]; now apply Hat.
  - apply nth_error_None in Hb.
    assert (i < List.length bs)%nat by (apply nth_error_Some; congruence). lia.
Qed.

(** ** Particles *)

Lemma newParticle_ok (x y : Q) (w : World) :
  particle_ok (fst (newParticle Math_random x y w)).
Proof.
  pose proof (Math_random_range (S (S (S (draws w))))) as H3.
  unfold particle_ok. cbn. repeat split; lra.
Qed.

Lemma newParticles_ok (x y : Q) (w : World) :
  Forall particle_ok (fst (newParticles Math_random x y w)).
Proof.
  unfold newParticles. apply arrayFrom_Forall. intros _ w'. apply newParticle_ok.
Qed.

Lemma createExplosion_ok (x y : Q) (w : World) :
  Forall particle_ok (particles w) ->
  Forall particle_ok (particles (exec (createExplosion Math_random x y) w)).
Proof.
  intros H. destruct (createExplosion_cells Math_random x y w) as (_ & _ & _ & Hp & _).
  rewrite Hp. apply Forall_firstn, Forall_app. split; [exact H | apply newParticles_ok].
Qed.

Lemma damage_particles_ok (b : Building.t) (w : World) :
  Forall particle_ok (particles w) ->
  Forall particle_ok (particles (exec (damage Math_random b) w)).
Proof.
  intros H. rewrite damage_exec. destruct (Building.health b - 1 <=? 0); [| exact H].
  rewrite particles_setGameState. now apply createExplosion_ok.
Qed.

Lemma mapM_particles_ok (k : Z) (prev : list Building.t) :
  forall i w,
    Forall particle_ok (particles w) ->
    Forall particle_ok
      (particles (exec (mapM (fun b i => if Z.of_nat i =? k
                                         then damage Math_random b else ret b)
                             i prev) w)).
Proof.
  induction prev as [|b prev IH]; intros i w H; simpl mapM.
  - exact H.
  - rewrite !exec_bind, exec_ret. apply IH.
    destruct (Z.of_nat i =? k); [now apply damage_particles_ok | exact H].
Qed.

Lemma handleLetterCollision_particles_ok
  (buildings0 : list Building.t) (letter : Letter.t) (w : World) :
  Forall particle_ok (particles w) ->
  Forall particle_ok
    (particles (exec (handleLetterCollision Math_random buildings0 letter) w)).
Proof.
  intros H. unfold handleLetterCollision.
  destruct (negb (findIndex (isHit letter) buildings0 =? -1)); [| exact H].
  rewrite particles_setBuildings. now apply mapM_particles_ok.
Qed.

(** The buildings and the particles after the impacts of a tick. *)
Lemma collisions_board (buildings0 : list Building.t) (ls : list Letter.t) :
  forall w,
    laid_out (buildings w) -> Forall particle_ok (particles w) ->
    laid_out (buildings (fold_left
      (fun w l => exec (handleLetterCollision Math_random buildings0 l) w) ls w))
    /\ Forall particle_ok (particles (fold_left
      (fun w l => exec (handleLetterCollision Math_random buildings0 l) w) ls w)).
Proof.
  induction ls as [|l ls IH]; intros w Hb Hp; simpl fold_left.
  - now split.
  - apply IH.
    + now apply handleLetterCollision_laid_out.
    + now apply handleLetterCollision_particles_ok.
Qed.

Lemma gameLoop_board (gs : GameState) (buildings0 : list Building.t) (now : Z)
  (w : World) :
  laid_out (buildings w) -> Forall particle_ok (particles w) ->
  laid_out (buildings (exec (gameLoop Math_random Math_sin gs buildings0 now) w))
  /\ Forall particle_ok
       (particles (exec (gameLoop Math_random Math_sin gs buildings0 now) w)).
Proof.
  intros Hb Hp. unfold gameLoop.
  rewrite buildings_setLetters, particles_setLetters, filterM_collisions.
  now apply collisions_board.
Qed.

(** ** Letters *)

Lemma alphabet_at_capital (i : Z) : 0 <= i < 26 -> is_capital (alphabet_at i).
Proof.
  intros Hi. unfold alphabet_at.
  replace (i <? 0) with false by (symmetry; apply Z.ltb_ge; lia).
  assert (Hn : (Z.to_nat i < 26)%nat) by lia. revert Hn.
  generalize (Z.to_nat i). intros n Hn.
  do 26 (destruct n as [|n];
         [eexists; split; [reflexivity | vm_compute; lia] |]).
  lia.
Qed.

Lemma floor_of_draw (r : Q) :
  (0 <= r /\ r < 1)%Q -> 0 <= Qfloor (r * 26) < 26.
Proof.
  intros [H0 H1]. split.
  - change 0 with (Qfloor 0). apply Qfloor_resp_le. lra.
  - rewrite Zlt_Qlt. apply Qle_lt_trans with (r * 26)%Q; [apply Qfloor_le | unfold inject_Z; lra].
Qed.

Lemma speed_at_level_1 (gs : GameState) (t : LetterType) :
  level gs = 1 ->
  speed_of_type t (letterSpeed gs * (if LetterType_eqb t FAST then 1.5 else 1))%Q.
Proof.
  intros Hlevel. unfold speed_of_type, letterSpeed. rewrite Hlevel.
  destruct t; vm_compute; split; discriminate.
Qed.

Lemma speed_of_type_pos (t : LetterType) (v : Q) : speed_of_type t v -> (0 < v)%Q.
Proof.
  unfold speed_of_type. destruct (LetterType_eqb t FAST); intros [H _]; lra.
Qed.

Lemma newLetter_ok (gs : GameState) (t : LetterType) (now : Z) (w : World) :
  level gs = 1 ->
  letter_ok (fst (newLetter Math_random gs t now w))
  /\ Letter.id (fst (newLetter Math_random gs t now w)) = now
  /\ Letter.type (fst (newLetter Math_random gs t now w)) = t
  /\ Letter.y (fst (newLetter Math_random gs t now w)) = 0%Q
  /\ Letter.scale (fst (newLetter Math_random gs t now w)) = 1%Q
  /\ (0 <= Letter.rotation (fst (newLetter Math_random gs t now w))
      /\ Letter.rotation (fst (newLetter Math_random gs t now w)) < 360)%Q.
Proof.
  intros Hlevel.
  pose proof (Math_random_range (draws w)) as H0.
  pose proof (Math_random_range (S (draws w))) as H1.
  pose proof (Math_random_range (S (S (draws w)))) as H2.
  unfold letter_ok. cbn [newLetter random bind ret fst snd draws Letter.y Letter.x
                          Letter.char Letter.type Letter.speed Letter.id
                          Letter.scale Letter.rotation].
  unfold GAME_WIDTH, GAME_HEIGHT.
  split; [split; [lra |]; split; [lra |]; split;
          [apply alphabet_at_capital, floor_of_draw, H0
          | now apply speed_at_level_1] |].
  repeat split; lra.
Qed.

Lemma spawnTimer_letter (gs : GameState) (now : Z) (w : World) :
  gameState (exec (spawnTimer Math_random gs now) w) = gameState w
  /\ buildings (exec (spawnTimer Math_random gs now) w) = buildings w
  /\ particles (exec (spawnTimer Math_random gs now) w) = particles w
  /\ letters (exec (spawnTimer Math_random gs now) w)
     = letters w
       ++ [fst (newLetter Math_random gs (fst (pickLetterType Math_random w)) now
                          (exec (pickLetterType Math_random) w))].
Proof.
  unfold spawnTimer. rewrite exec_bind.
  rewrite gameState_setLetters, buildings_setLetters, particles_setLetters,
    letters_setLetters.
  rewrite !exec_bind, !fst_bind, exec_ret, fst_ret.
  pose proof (pickLetterType_same_cells Math_random w) as H. revert H.
  generalize (fst (pickLetterType Math_random w)).
  generalize (exec (pickLetterType Math_random) w).
  intros w1 t (Hg & Hb & Hl & Hp & _).
  destruct (newLetter_same_cells Math_random gs t now w1) as (Hg' & Hb' & _ & Hp' & _).
  rewrite Hg', Hb', Hp', Hg, Hb, Hp, Hl. repeat split.
Qed.

Lemma moveLetter_ok (gs : GameState) (now : Z) (l : Letter.t) :
  letter_ok l -> impacts (moveLetter Math_sin gs now l) = false ->
  letter_ok (moveLetter Math_sin gs now l).
Proof.
  intros ((Hy0 & Hy1) & Hx & Hc & Hs) Himp.
  unfold impacts, Qgeb in Himp.
  assert (Hlow : (Letter.y (moveLetter Math_sin gs now l) < GAME_HEIGHT - 20)%Q).
  { apply Qnot_le_lt. intros Hle. apply Qle_bool_iff in Hle. congruence. }
  unfold letter_ok. split; [split; [| exact Hlow] | now repeat split].
  cbn [moveLetter Letter.y].
  assert (Hpos : (0 < Letter.speed l)%Q) by now apply speed_of_type_pos in Hs.
  destruct (powerUpActive gs); nra.
Qed.

Lemma moved_letters_ok (gs : GameState) (now : Z) (ls : list Letter.t) :
  Forall letter_ok ls ->
  Forall letter_ok (filter (fun l => negb (impacts l))
                           (map (moveLetter Math_sin gs now) ls)).
Proof.
  intros H. apply Forall_forall. intros l' Hl'.
  apply filter_In in Hl'. destruct Hl' as [Hin Himp].
  apply in_map_iff in Hin. destruct Hin as (l & <- & Hl).
  rewrite Forall_forall in H.
  apply moveLetter_ok; [now apply H | now apply negb_true_iff].
Qed.

(** ** The board along runs *)

Lemma updated_particles_ok (ps : list Particle.t) :
  Forall particle_ok ps ->
  Forall particle_ok
    (firstn MAX_PARTICLES
       (filter (fun p => Qgtb (Particle.life p) 0) (map updateParticle ps))).
Proof.
  intros H. apply Forall_firstn. apply Forall_forall. intros p' Hp'.
  apply filter_In in Hp'. destruct Hp' as [Hin Halive].
  apply in_map_iff in Hin. destruct Hin as (p & <- & Hp).
  rewrite Forall_forall in H. destruct (H p Hp) as ((_ & Hle) & Hsize & Hcolor).
  unfold Qgtb in Halive. apply negb_true_iff in Halive.
  assert (Hpos : (0 < Particle.life (updateParticle p))%Q).
  { apply Qnot_le_lt. intros Hc. apply Qle_bool_iff in Hc. congruence. }
  unfold particle_ok. split; [split; [exact Hpos |] | split; assumption].
  cbn [updateParticle Particle.life]. lra.
Qed.

Lemma Board_fresh (w0 : World) :
  letters w0 = [] -> particles w0 = [] ->
  score (gameState w0) = 0 -> combo (gameState w0) = 0 ->
  cityHealth (gameState w0) = 100 ->
  lastComboTime (gameState w0) = 0 -> lastPoints (gameState w0) = 0 ->
  powerUpActive (gameState w0) = false ->
  Board (exec (setBuildings (fun _ =>
                 ret (fst (arrayFrom (newBuilding Math_random) 0 BUILDING_COUNT w0))))
              (exec (arrayFrom (newBuilding Math_random) 0 BUILDING_COUNT) w0)).
Proof.
  intros Hl Hp Hs Hc Hh Ht Hlp Hpow. rewrite resetGame_tail.
  destruct (fresh_buildings w0) as [Hlaid Hfresh].
  pose proof (arrayFrom_same_cells (newBuilding Math_random)
                (newBuilding_same_cells Math_random) BUILDING_COUNT 0 w0) as Hsame.
  revert Hlaid Hfresh Hsame.
  generalize (fst (arrayFrom (newBuilding Math_random) 0 BUILDING_COUNT w0)).
  generalize (exec (arrayFrom (newBuilding Math_random) 0 BUILDING_COUNT) w0).
  intros w1 nb Hlaid Hfresh (Hg & _ & Hl1 & Hp1 & _).
  unfold Board, pristine. cbn [gameState buildings letters particles].
  rewrite Hg, Hl1, Hp1, Hl, Hp, Hs, Hc, Hh, Ht, Hlp, Hpow.
  split; [exact Hlaid |]. repeat split; auto; lia.
Qed.

Lemma Board_mounted : Board (mounted Math_random).
Proof.
  unfold mounted, initBuildings. rewrite !exec_bind.
  apply Board_fresh; reflexivity.
Qed.

Lemma Board_resetGame (w : World) : Board (exec (resetGame Math_random) w).
Proof.
  unfold resetGame. rewrite !exec_bind.
  apply Board_fresh; reflexivity.
Qed.

Lemma matched_is_running (w : World) (e_key : string) (letter : Letter.t) :
  matchedLetter toUpperCase w e_key = Some letter -> isActive (gameState w) = true.
Proof.
  unfold matchedLetter, running.
  destruct (isActive (gameState w)); [reflexivity | discriminate].
Qed.

Lemma running_is_active (gs : GameState) : running gs = true -> isActive gs = true.
Proof. unfold running. destruct (isActive gs); [reflexivity | discriminate]. Qed.

Lemma letterPoints_bounds (gs : GameState) (now : Z) (letter : Letter.t) :
  0 <= combo gs ->
  100 <= letterPoints gs now letter <= 3000.
Proof.
  intros Hc. unfold letterPoints, newCombo.
  destruct (now - lastComboTime gs <? 1000); destruct (Letter.type letter);
    cbn [points]; lia.
Qed.

Lemma Board_active (w : World) :
  laid_out (buildings w) -> Forall letter_ok (letters w) ->
  Forall particle_ok (particles w) -> 0 <= score (gameState w) ->
  isActive (gameState w) = true -> Board w.
Proof.
  intros Hb Hl Hp Hs Hact. unfold Board. rewrite Hact.
  split; [exact Hb |]. split; [exact Hl |]. split; [exact Hp |].
  split; [exact Hs | discriminate].
Qed.

(** The board after a call of the handler that captured [w], on a
    world [w1] that may have moved on. *)
Lemma Board_keyPress_on (w w1 : World) (e_key : string) (now : Z) :
  0 <= combo (gameState w) ->
  (isActive (gameState w) = true -> isActive (gameState w1) = true) ->
  Board w1 ->
  Board (exec (handleKeyPress Math_random toUpperCase (gameState w) (letters w)
                 e_key now) w1).
Proof.
  intros Hcombo Hact HB.
  pose proof HB as (Hlaid & Hletters & Hparts & Hscore & Hidle).
  destruct (matchedLetter toUpperCase w e_key) as [letter|] eqn:Hm.
  - destruct (handleKeyPress_match_on Math_random toUpperCase w w1 e_key now letter Hm)
      as (Hgs & Hb & Hl & Hp).
    pose proof (letterPoints_bounds (gameState w) now letter Hcombo).
    apply Board_active; rewrite ?Hgs, ?Hb, ?Hl, ?Hp.
    + exact Hlaid.
    + now apply filter_index_neq_Forall.
    + apply Forall_firstn, Forall_app. split; [exact Hparts | apply newParticles_ok].
    + cbn [scoreLetter score]. lia.
    + cbn [scoreLetter isActive]. apply Hact.
      exact (matched_is_running w e_key letter Hm).
  - now rewrite (handleKeyPress_no_match_on Math_random toUpperCase w w1 e_key now Hm).
Qed.

Lemma Board_step (e : Event) (w : World) :
  Inv w -> Board w -> Board (step Math_random Math_sin toUpperCase e w).
Proof.
  intros (_ & _ & Hlevel & Hcombo & _) HB.
  pose proof HB as (Hlaid & Hletters & Hparts & Hscore & Hidle).
  destruct e as [ | | e_key now | e_key now now' | now | now | | | ].
  - unfold step, startGame. destruct (isActive (gameState w)) eqn:Hact; [exact HB |].
    apply Board_active; cbn; auto.
  - apply Board_resetGame.
  - unfold step. now apply Board_keyPress_on.
  - rewrite (keyPressFocused_exec Math_random Math_sin).
    apply Board_keyPress_on; [exact Hcombo | | now apply Board_keyPress_on].
    destruct (handleKeyPress_frame Math_random toUpperCase w w e_key now)
      as (_ & _ & _ & _ & -> & _).
    auto.
  - unfold step. destruct (running (gameState w)) eqn:Hrun; [| exact HB].
    destruct (spawnTimer_letter (gameState w) now w) as (Hgs & Hb & Hp & Hl).
    apply Board_active; rewrite ?Hgs, ?Hb, ?Hp, ?Hl; auto.
    + apply Forall_app. split; [exact Hletters |].
      constructor; [| constructor]. now apply newLetter_ok.
    + now apply running_is_active.
  - unfold step. destruct (running (gameState w)) eqn:Hrun; [| exact HB].
    destruct (gameLoop_board (gameState w) (buildings w) now w Hlaid Hparts)
      as [Hlaid' Hparts'].
    destruct (gameLoop_effect Math_random Math_sin (gameState w) (buildings w) now w)
      as ((Hs & _ & _ & _ & _ & _ & Hact & _) & _).
    apply Board_active; auto.
    + rewrite (gameLoop_letters Math_random Math_sin). now apply moved_letters_ok.
    + now rewrite Hs.
    + rewrite Hact. now apply running_is_active.
  - unfold step. destruct (particleLoop_enabled w) eqn:Hen; [| exact HB].
    assert (Hact : isActive (gameState w) = true).
    { unfold particleLoop_enabled in Hen.
      destruct (isActive (gameState w)); [reflexivity | discriminate]. }
    apply Board_active; cbn [exec particleLoop setParticles snd gameState buildings
                             letters particles]; auto.
    now apply updated_particles_ok.
  - unfold step. destruct (comboTimeout w); [| exact HB].
    unfold Board, pristine in *. cbn.
    split; [exact Hlaid |]. split; [exact Hletters |]. split; [exact Hparts |].
    split; [exact Hscore |]. intros Hoff. apply Hidle in Hoff.
    repeat split; tauto.
  - unfold step. destruct (shakeTimeout w); [| exact HB].
    unfold Board, pristine in *. cbn.
    split; [exact Hlaid |]. split; [exact Hletters |]. split; [exact Hparts |].
    split; [exact Hscore |]. intros Hoff. apply Hidle in Hoff.
    repeat split; tauto.
Qed.

Lemma reachable_Board (w : World) : reachable Math_random Math_sin toUpperCase w -> Board w.
Proof.
  induction 1 as [|e w Hw IH]; [apply Board_mounted |].
  apply Board_step; [now apply (reachable_Inv Math_random Math_sin toUpperCase) | exact IH].
Qed.

End Board.

(** * Further properties of the component *)

Section BoardTheorems.

Variable Math_random : nat -> Q.
Hypothesis Math_random_range : forall n, (0 <= Math_random n /\ Math_random n < 1)%Q.
Variable Math_sin : Q -> Q.
Variable toUpperCase : string -> string.

Lemma index_below (i j : nat) :
  (i < j)%nat -> (inject_Z (Z.of_nat i) + 1 <= inject_Z (Z.of_nat j))%Q.
Proof.
  intros H. change 1%Q with (inject_Z 1). rewrite <- inject_Z_plus.
  rewrite <- Zle_Qle. lia.
Qed.

Lemma index_nonneg (i : nat) : (0 <= inject_Z (Z.of_nat i))%Q.
Proof. change 0%Q with (inject_Z 0). rewrite <- Zle_Qle. lia. Qed.

Lemma laid_out_apart (bs : list Building.t) (i j : nat) (bi bj : Building.t) :
  laid_out bs -> (i < j)%nat ->
  nth_error bs i = Some bi -> nth_error bs j = Some bj ->
  (Building.x bi + Building.width bi < Building.x bj)%Q.
Proof.
  intros [_ Hat] Hij Hi Hj.
  destruct (Hat i bi Hi) as (_ & Hxi & (_ & Hwi) & _).
  destruct (Hat j bj Hj) as (_ & Hxj & _).
  pose proof (index_below i j Hij). lra.
Qed.

(** X1.  In every reachable world there are eight buildings, and the
    one at index [i] has id [i], its left edge at 100 i + 10, a width
    between 30 and 70 and a height between 100 and 300.  Hence each
    span lies inside the play field, the span of a building ends before
    the next one starts, and the x of a letter is in the span of at
    most one standing building. *)
Theorem buildings_stay_laid_out (w : World) :
  reachable Math_random Math_sin toUpperCase w ->
  laid_out (buildings w)
  /\ (forall b, In b (buildings w) ->
        (0 < Building.x b /\ Building.x b + Building.width b < GAME_WIDTH)%Q)
  /\ (forall i j bi bj, (i < j)%nat ->
        nth_error (buildings w) i = Some bi ->
        nth_error (buildings w) j = Some bj ->
        (Building.x bi + Building.width bi < Building.x bj)%Q)
  /\ (forall letter i j bi bj,
        nth_error (buildings w) i = Some bi ->
        nth_error (buildings w) j = Some bj ->
        standing_under letter bi -> standing_under letter bj -> i = j).
Proof.
  intros Hreach. apply reachable_Board in Hreach; [| exact Math_random_range].
  destruct Hreach as (Hlaid & _).
  split; [exact Hlaid |]. split; [| split].
  - intros b Hb. apply In_nth_error in Hb. destruct Hb as [i Hi].
    assert (Hlt : (i < BUILDING_COUNT)%nat).
    { destruct Hlaid as [<- _]. apply nth_error_Some. congruence. }
    destruct Hlaid as [_ Hat].
    destruct (Hat i b Hi) as (_ & Hx & (_ & Hw) & _).
    pose proof (index_nonneg i).
    pose proof (index_below i BUILDING_COUNT Hlt) as Hup.
    change (inject_Z (Z.of_nat BUILDING_COUNT)) with 8%Q in Hup.
    unfold GAME_WIDTH. lra.
  - intros i j bi bj. now apply laid_out_apart.
  - intros letter i j bi bj Hi Hj (_ & Hli & Hri) (_ & Hlj & Hrj).
    destruct (Nat.lt_trichotomy i j) as [Hlt | [Heq | Hgt]]; [| exact Heq |]; exfalso.
    + pose proof (laid_out_apart _ _ _ _ _ Hlaid Hlt Hi Hj). lra.
    + pose proof (laid_out_apart _ _ _ _ _ Hlaid Hgt Hj Hi). lra.
Qed.

(** X2.  While the game is running, a firing of the spawn timer appends
    exactly one letter at the end of the list and touches neither the
    game state, the buildings nor the particles.  The letter carries
    the time of the firing as id, starts at y = 0 with scale 1, has an
    x in [0, 780) and a rotation in [0, 360), shows one capital letter
    A to Z, and has the speed of its type: 0.8 times 1.5 if it is FAST
    and 0.8 otherwise, up to the rounding of the product. *)
Theorem spawnTimer_appends_one_letter (w : World) (now : Z) :
  reachable Math_random Math_sin toUpperCase w ->
  running (gameState w) = true ->
  let w' := step Math_random Math_sin toUpperCase (SpawnTimer now) w in
  gameState w' = gameState w /\ buildings w' = buildings w
  /\ particles w' = particles w
  /\ exists l,
       letters w' = letters w ++ [l]
       /\ Letter.id l = now /\ Letter.y l = 0%Q /\ Letter.scale l = 1%Q
       /\ (0 <= Letter.x l /\ Letter.x l < GAME_WIDTH - 20)%Q
       /\ (0 <= Letter.rotation l /\ Letter.rotation l < 360)%Q
       /\ is_capital (Letter.char l)
       /\ speed_of_type (Letter.type l) (Letter.speed l).
Proof.
  intros Hreach Hrun w'. subst w'. unfold step. rewrite Hrun.
  apply reachable_Inv in Hreach. destruct Hreach as (_ & _ & Hlevel & _).
  destruct (spawnTimer_letter Math_random (gameState w) now w) as (Hgs & Hb & Hp & Hl).
  split; [exact Hgs |]. split; [exact Hb |]. split; [exact Hp |].
  rewrite Hl.
  destruct (newLetter_ok Math_random Math_random_range (gameState w)
              (fst (pickLetterType Math_random w)) now
              (exec (pickLetterType Math_random) w) Hlevel)
    as ((_ & Hx & Hc & Hs) & Hid & _ & Hy & Hscale & Hrot).
  eexists. split; [reflexivity |]. repeat split; try assumption; apply Hx || apply Hrot.
Qed.

(** X3.  Every letter on screen in a reachable world is above the
    ground line (0 <= y < 530), inside the play width (0 <= x < 780),
    shows one capital letter A to Z and has the speed of its type, 0.8
    times 1.5 for FAST and 0.8 otherwise, up to the rounding of the
    product: a letter that reaches the line is removed in the tick in
    which it does. *)
Theorem letters_on_screen (w : World) :
  reachable Math_random Math_sin toUpperCase w ->
  Forall (fun l =>
            (0 <= Letter.y l /\ Letter.y l < GAME_HEIGHT - 20)%Q
            /\ (0 <= Letter.x l /\ Letter.x l < GAME_WIDTH - 20)%Q
            /\ is_capital (Letter.char l)
            /\ speed_of_type (Letter.type l) (Letter.speed l))
         (letters w).
Proof.
  intros Hreach. apply reachable_Board in Hreach; [| exact Math_random_range].
  apply Hreach.
Qed.

(** X4.  A game that is not active is a fresh one: in every reachable
    world with [isActive] false there are no letters and no particles,
    score, combo and last points are 0, city health is 100, no power-up
    is active and every building has health 3 and stands.  In such a
    world key presses and the three intervals change nothing. *)
Theorem idle_game_is_fresh_and_inert (w : World) :
  reachable Math_random Math_sin toUpperCase w ->
  isActive (gameState w) = false ->
  pristine w
  /\ forall e,
       match e with
       | KeyPress _ _ | KeyPressFocused _ _ _ | SpawnTimer _ | GameLoop _
       | ParticleLoop =>
           step Math_random Math_sin toUpperCase e w = w
       | _ => True
       end.
Proof.
  intros Hreach Hidle. apply reachable_Board in Hreach; [| exact Math_random_range].
  destruct Hreach as (_ & _ & _ & _ & Hfresh).
  split; [now apply Hfresh |].
  assert (Hrun : running (gameState w) = false).
  { unfold running. now rewrite Hidle. }
  intros [ | | e_key now | e_key now now' | now | now | | | ]; try exact I.
  - apply handleKeyPress_no_match. unfold matchedLetter. now rewrite Hrun.
  - rewrite keyPressFocused_exec.
    assert (Hm : matchedLetter toUpperCase w e_key = None)
      by (unfold matchedLetter; now rewrite Hrun).
    now rewrite !(handleKeyPress_no_match_on Math_random toUpperCase w _ e_key _ Hm).
  - unfold step. now rewrite Hrun.
  - unfold step. now rewrite Hrun.
  - unfold step, particleLoop_enabled. now rewrite Hidle.
Qed.

Lemma resetGame_cells (w : World) :
  let w' := exec (resetGame Math_random) w in
  gameState w'
  = {| score := 0; level := 1; combo := 0; cityHealth := 100;
       highScore := Z.max (score (gameState w)) (highScore (gameState w));
       lastComboTime := 0; lastPoints := 0; isActive := false;
       gameOver := false; victory := false; powerUpActive := false |}
  /\ letters w' = [] /\ particles w' = []
  /\ buildings w'
     = fst (arrayFrom (newBuilding Math_random) 0 BUILDING_COUNT
              (exec (setParticles (fun _ => []))
                 (exec (setLetters (fun _ => ret []))
                    (exec (setGameState (fun prev =>
                       {| score := 0; level := 1; combo := 0; cityHealth := 100;
                          highScore := Z.max (score prev) (highScore prev);
                          lastComboTime := 0; lastPoints := 0; isActive := false;
                          gameOver := false; victory := false;
                          powerUpActive := false |})) w))))
  /\ comboTimeout w' = comboTimeout w
  /\ shakeTimeout w' = shakeTimeout w
  /\ shake w' = shake w.
Proof.
  intros w'. subst w'. unfold resetGame.
  rewrite !exec_bind, resetGame_tail.
  match goal with
  | |- context [arrayFrom _ 0%nat BUILDING_COUNT ?w0] =>
      pose proof (arrayFrom_same_cells (newBuilding Math_random)
                    (newBuilding_same_cells Math_random) BUILDING_COUNT 0 w0) as Hsame;
      revert Hsame;
      generalize (fst (arrayFrom (newBuilding Math_random) 0 BUILDING_COUNT w0));
      generalize (exec (arrayFrom (newBuilding Math_random) 0 BUILDING_COUNT) w0)
  end.
  intros w1 nb (Hg & _ & Hl & Hp & Hs & Hc & Ht).
  cbn [gameState buildings letters particles shake comboTimeout shakeTimeout].
  rewrite Hg, Hl, Hp, Hs, Hc, Ht. repeat split.
Qed.

(** X5.  A reset, from any world: score, combo, last points and last
    combo time are 0, level is 1, city health is 100, the high score is
    the larger of the old score and the old high score, the game is not
    active and no power-up is; letters and particles are gone; the
    eight buildings are laid out afresh, each standing with health 3.
    The reset cancels neither pending timeout and leaves the shake flag
    as it was. *)
Theorem resetGame_result (w : World) :
  let w' := step Math_random Math_sin toUpperCase PlayAgain w in
  gameState w'
  = {| score := 0; level := 1; combo := 0; cityHealth := 100;
       highScore := Z.max (score (gameState w)) (highScore (gameState w));
       lastComboTime := 0; lastPoints := 0; isActive := false;
       gameOver := false; victory := false; powerUpActive := false |}
  /\ letters w' = [] /\ particles w' = []
  /\ laid_out (buildings w')
  /\ Forall (fun b => Building.health b = 3 /\ Building.destroyed b = false)
            (buildings w')
  /\ comboTimeout w' = comboTimeout w
  /\ shakeTimeout w' = shakeTimeout w
  /\ shake w' = shake w.
Proof.
  intros w'. subst w'. unfold step.
  destruct (resetGame_cells w) as (Hg & Hl & Hp & Hb & Hc & Ht & Hs).
  rewrite Hg, Hl, Hp, Hb, Hc, Ht, Hs.
  match goal with
  | |- context [arrayFrom _ 0%nat BUILDING_COUNT ?w0] =>
      destruct (fresh_buildings Math_random Math_random_range w0) as [Hlaid Hfresh]
  end.
  split; [reflexivity |]. split; [reflexivity |]. split; [reflexivity |].
  split; [exact Hlaid |]. split; [exact Hfresh |]. repeat split.
Qed.

Lemma particles_age (es : list Event) : forall (w : World) (k : nat),
  reachable Math_random Math_sin toUpperCase w ->
  Forall (fun e => makes_particles e = false) es ->
  Forall (fun p => (Particle.life p <= 1 - 0.02 * inject_Z (Z.of_nat k))%Q)
         (particles w) ->
  Forall (fun p => (Particle.life p
                    <= 1 - 0.02 * inject_Z (Z.of_nat (particle_ticks es + k)))%Q)
         (particles (run Math_random Math_sin toUpperCase es w)).
Proof.
  induction es as [|e es IH]; intros w k Hreach Hquiet Hage; [exact Hage |].
  inversion Hquiet as [|e' es' He Hes]; subst.
  pose proof (reachable_Board Math_random Math_random_range Math_sin toUpperCase w Hreach)
    as (_ & _ & _ & _ & Hidle).
  assert (Hnext : reachable Math_random Math_sin toUpperCase (step Math_random Math_sin toUpperCase e w))
    by now constructor.
  change (run Math_random Math_sin toUpperCase (e :: es) w)
    with (run Math_random Math_sin toUpperCase es (step Math_random Math_sin toUpperCase e w)).
  destruct e as [ | | e_key now | e_key now now' | now | now | | | ];
    try discriminate He.
  - apply (IH _ k Hnext Hes).
    unfold step, startGame. destruct (negb (isActive (gameState w))); exact Hage.
  - apply (IH _ k Hnext Hes).
    destruct (resetGame_cells w) as (_ & _ & Hp & _).
    unfold step. rewrite Hp. constructor.
  - apply (IH _ k Hnext Hes). unfold step.
    destruct (running (gameState w)); [| exact Hage].
    destruct (spawnTimer_letter Math_random (gameState w) now w) as (_ & _ & Hp & _).
    now rewrite Hp.
  - change (particle_ticks (ParticleLoop :: es) + k)%nat
      with (S (particle_ticks es + k)).
    rewrite plus_n_Sm. apply (IH _ (S k) Hnext Hes).
    unfold step. destruct (particleLoop_enabled w) eqn:Hen.
    + cbn [exec particleLoop setParticles snd particles].
      apply Forall_firstn, Forall_filter.
      apply Forall_forall. intros p' Hp'. apply in_map_iff in Hp'.
      destruct Hp' as (p & <- & Hp). rewrite Forall_forall in Hage.
      pose proof (Hage p Hp) as Hle. cbn [updateParticle Particle.life].
      rewrite Nat2Z.inj_succ. unfold Z.succ. rewrite inject_Z_plus.
      change (inject_Z 1) with 1%Q. lra.
    + assert (Hnone : particles w = []).
      { unfold particleLoop_enabled in Hen. apply negb_false_iff in Hen.
        apply orb_true_iff in Hen. destruct Hen as [Hoff | Hlen].
        - apply negb_true_iff in Hoff. apply Hidle in Hoff. apply Hoff.
        - apply Nat.eqb_eq in Hlen. now apply length_zero_iff_nil. }
      rewrite Hnone. constructor.
  - apply (IH _ k Hnext Hes). unfold step. destruct (comboTimeout w); exact Hage.
  - apply (IH _ k Hnext Hes). unfold step. destruct (shakeTimeout w); exact Hage.
Qed.

(** X6.  Every particle in a reachable world has a life in (0, 1], a
    size in [4, 8] and the colour of the bursts.  Each firing of the
    particle interval takes 0.02 of life, so once it has fired 50 times
    with no key press and no game-loop tick in between, whatever else
    happens, no particle is left. *)
Theorem particles_fade_out (es : list Event) (w : World) :
  reachable Math_random Math_sin toUpperCase w ->
  Forall (fun e => makes_particles e = false) es ->
  (50 <= particle_ticks es)%nat ->
  Forall particle_ok (particles w)
  /\ particles (run Math_random Math_sin toUpperCase es w) = [].
Proof.
  intros Hreach Hquiet Hticks.
  pose proof (reachable_Board Math_random Math_random_range Math_sin toUpperCase w Hreach)
    as (_ & _ & Hparts & _).
  split; [exact Hparts |].
  assert (Hage : Forall (fun p => (Particle.life p <= 1 - 0.02 * inject_Z (Z.of_nat 0))%Q)
                        (particles w)).
  { eapply Forall_impl; [| exact Hparts]. intros p ((_ & Hle) & _).
    change (inject_Z (Z.of_nat 0)) with 0%Q. lra. }
  pose proof (particles_age es w 0 Hreach Hquiet Hage) as Hold.
  pose proof (reachable_Board Math_random Math_random_range Math_sin toUpperCase _
                (run_reachable Math_random Math_sin toUpperCase es w Hreach))
    as (_ & _ & Hlive & _).
  destruct (particles (run Math_random Math_sin toUpperCase es w)) as [|p ps]; [reflexivity |].
  exfalso. inversion Hold as [|? ? Hle _]; inversion Hlive as [|? ? ((Hpos & _) & _) _]; subst.
  rewrite Nat.add_0_r in Hle.
  assert (H50 : (50 <= inject_Z (Z.of_nat (particle_ticks es)))%Q).
  { change 50%Q with (inject_Z 50). rewrite <- Zle_Qle. lia. }
  lra.
Qed.

(** X7.  In every reachable world the score and the combo are not
    negative, city health is between 0 and 100, and every building has
    a health of at most 3 and is flagged destroyed exactly when its
    health is 0 or less. *)
Theorem counters_stay_in_range (w : World) :
  reachable Math_random Math_sin toUpperCase w ->
  0 <= score (gameState w)
  /\ 0 <= combo (gameState w)
  /\ 0 <= cityHealth (gameState w) <= 100
  /\ Forall (fun b => Building.health b <= 3
                      /\ (Building.destroyed b = true <-> Building.health b <= 0))
            (buildings w).
Proof.
  intros Hreach.
  pose proof (reachable_Board Math_random Math_random_range Math_sin toUpperCase w Hreach)
    as (_ & _ & _ & Hscore & _).
  apply reachable_Inv in Hreach.
  destruct Hreach as (_ & _ & _ & Hcombo & Hcity & _ & _ & Hok & _).
  split; [exact Hscore |]. split; [exact Hcombo |]. split; [exact Hcity |].
  eapply Forall_impl; [| exact Hok]. intros b [Hflag Hmax].
  split; [exact Hmax |]. rewrite Hflag. apply Z.leb_le.
Qed.

End BoardTheorems.

Section Handlers.

Variable Math_random : nat -> Q.
Variable Math_sin : Q -> Q.
Variable toUpperCase : string -> string.

Lemma findIndex_from_none {A : Type} (p : A -> bool) (l : list A) (i : Z) :
  Forall (fun a => p a = false) l -> findIndex_from p i l = -1.
Proof.
  intros H. revert i. induction H as [|a l Ha _ IH]; intros i; simpl.
  - reflexivity.
  - rewrite Ha. apply IH.
Qed.

Lemma findIndex_from_first {A : Type} (p : A -> bool) (before after : list A)
  (a : A) (i : Z) :
  Forall (fun b => p b = false) before -> p a = true ->
  findIndex_from p i (before ++ a :: after) = i + Z.of_nat (List.length before).
Proof.
  intros H Ha. revert i. induction H as [|b l Hb _ IH]; intros i; simpl.
  - rewrite Ha. lia.
  - rewrite Hb, IH. lia.
Qed.

Lemma filter_index_neq_above {A : Type} (k i : Z) (l : list A) :
  k < i -> filter_index_neq k i l = l.
Proof.
  revert i. induction l as [|a l IH]; intros i Hi; simpl; [reflexivity |].
  destruct (Z.eqb_spec i k) as [-> | _]; [lia |]. simpl.
  now rewrite IH by lia.
Qed.

Lemma filter_index_neq_at {A : Type} (before after : list A) (a : A) :
  forall k i, k = i + Z.of_nat (List.length before) ->
  filter_index_neq k i (before ++ a :: after) = before ++ after.
Proof.
  induction before as [|b l IH]; intros k i Hk.
  - simpl in *. destruct (Z.eqb_spec i k) as [_ | E]; [| lia]. simpl.
    apply filter_index_neq_above. lia.
  - cbn [List.length app filter_index_neq].
    change (List.length (b :: l)) with (S (List.length l)) in Hk.
    rewrite Nat2Z.inj_succ in Hk.
    destruct (Z.eqb_spec i k) as [E | _]; [lia |].
    cbn [negb]. f_equal. apply IH. lia.
Qed.

Lemma filter_index_neq_split {A : Type} (before after : list A) (a : A) :
  filter_index_neq (Z.of_nat (List.length before)) 0 (before ++ a :: after)
  = before ++ after.
Proof. apply filter_index_neq_at. lia. Qed.

Lemma filter_index_neq_length {A : Type} (k i : Z) (l : list A) :
  (List.length (filter_index_neq k i l) <= List.length l)%nat.
Proof.
  revert i. induction l as [|a l IH]; intros i; simpl; [lia |].
  destruct (negb (i =? k)); simpl; specialize (IH (i + 1)); lia.
Qed.

Lemma first_match (w : World) (e_key : string) (before after : list Letter.t)
  (letter : Letter.t) :
  running (gameState w) = true ->
  letters w = before ++ letter :: after ->
  no_letter_for toUpperCase e_key before ->
  char_eqb (Letter.char letter) (toUpperCase e_key) = true ->
  findIndex (fun l => char_eqb (Letter.char l) (toUpperCase e_key)) (letters w)
  = Z.of_nat (List.length before)
  /\ matchedLetter toUpperCase w e_key = Some letter.
Proof.
  intros Hrun Hl Hbefore Hletter.
  assert (Hidx : findIndex (fun l => char_eqb (Letter.char l) (toUpperCase e_key))
                           (letters w) = Z.of_nat (List.length before)).
  { unfold findIndex. rewrite Hl.
    now rewrite (findIndex_from_first _ before after letter 0 Hbefore Hletter). }
  split; [exact Hidx |].
  unfold matchedLetter. rewrite Hrun, Hidx.
  destruct (Z.eqb_spec (Z.of_nat (List.length before)) (-1)) as [E | _]; [lia |].
  rewrite Nat2Z.id, Hl, nth_error_app2 by lia.
  now rewrite Nat.sub_diag.
Qed.

Lemma filter_index_neq_tail {A : Type} (before after : list A) :
  filter_index_neq (Z.of_nat (List.length before)) 0 (before ++ after)
  = before ++ tl after.
Proof.
  destruct after as [|a after].
  - rewrite app_nil_r. simpl tl. rewrite app_nil_r.
    assert (H : forall (l : list A) k i, i + Z.of_nat (List.length l) <= k ->
                  filter_index_neq k i l = l).
    { induction l as [|b l IH]; intros k i Hk; simpl; [reflexivity |].
      cbn [List.length] in Hk. rewrite Nat2Z.inj_succ in Hk.
      destruct (Z.eqb_spec i k) as [E | _]; [lia |]. simpl.
      now rewrite IH by lia. }
    apply H. lia.
  - apply filter_index_neq_split.
Qed.

(** X8.  A key press changes nothing at all when the game is not
    running, or when no letter on screen carries the upper-case form of
    the key: no score, no penalty, no particles, and the combo and its
    timeout are left alone.  This holds whether the key press reaches
    the handler once or, the play field having the focus, twice. *)
Theorem keyPress_without_match (w : World) (e_key : string) (now now' : Z) :
  running (gameState w) = false \/ no_letter_for toUpperCase e_key (letters w) ->
  step Math_random Math_sin toUpperCase (KeyPress e_key now) w = w
  /\ step Math_random Math_sin toUpperCase (KeyPressFocused e_key now now') w = w.
Proof.
  intros H.
  assert (Hm : matchedLetter toUpperCase w e_key = None).
  { unfold matchedLetter. destruct H as [-> | H]; [reflexivity |].
    destruct (running (gameState w)); [| reflexivity].
    unfold findIndex. now rewrite (findIndex_from_none _ _ 0 H). }
  split.
  - unfold step. now apply handleKeyPress_no_match.
  - rewrite keyPressFocused_exec.
    now rewrite !(handleKeyPress_no_match_on Math_random toUpperCase w _ e_key _ Hm).
Qed.

(** X9.  While the game is running, the handler looks for the first
    letter in storage order (the oldest) that carries the upper-case
    form of the key.  A key press that reaches the handler once removes
    that letter and only that one: later letters with the same
    character stay, and the order of the others is kept; the burst is
    created where that letter was, the time of the press becomes the
    last combo time, the power-up is switched on if the letter is a
    POWER letter and left as it was otherwise, and the buildings are
    not touched.  A key press on the focused play field runs the
    handler a second time on what the first call captured: the second
    call takes out the letter that follows the matched one in the list,
    whatever it shows, adds the points of the matched letter once more,
    and sets the combo to the value that the first call has already
    given it (when both calls read the same time), so that one key
    press scores twice and raises the combo once. *)
Theorem keyPress_removes_first_match
  (w : World) (e_key : string) (now now' : Z)
  (before after : list Letter.t) (letter : Letter.t) :
  running (gameState w) = true ->
  letters w = before ++ letter :: after ->
  no_letter_for toUpperCase e_key before ->
  char_eqb (Letter.char letter) (toUpperCase e_key) = true ->
  let w1 := step Math_random Math_sin toUpperCase (KeyPress e_key now) w in
  let w2 := step Math_random Math_sin toUpperCase (KeyPressFocused e_key now now') w in
  matchedLetter toUpperCase w e_key = Some letter
  /\ (letters w1 = before ++ after
      /\ particles w1
         = firstn MAX_PARTICLES
             (particles w
              ++ fst (newParticles Math_random (Letter.x letter) (Letter.y letter) w))
      /\ lastComboTime (gameState w1) = now
      /\ powerUpActive (gameState w1)
         = (if LetterType_eqb (Letter.type letter) POWER then true
            else powerUpActive (gameState w))
      /\ buildings w1 = buildings w)
  /\ (letters w2 = before ++ tl after
      /\ score (gameState w2)
         = score (gameState w) + letterPoints (gameState w) now letter
           + letterPoints (gameState w) now' letter
      /\ combo (gameState w2) = newCombo (gameState w) now'
      /\ lastPoints (gameState w2) = letterPoints (gameState w) now' letter
      /\ lastComboTime (gameState w2) = now'
      /\ particles w2
         = firstn MAX_PARTICLES
             (particles w1
              ++ fst (newParticles Math_random (Letter.x letter) (Letter.y letter) w1))
      /\ powerUpActive (gameState w2)
         = (if LetterType_eqb (Letter.type letter) POWER then true
            else powerUpActive (gameState w))
      /\ buildings w2 = buildings w).
Proof.
  intros Hrun Hl Hbefore Hletter w1 w2.
  destruct (first_match w e_key before after letter Hrun Hl Hbefore Hletter)
    as [Hidx Hm].
  split; [exact Hm |].
  assert (H1 : gameState w1 = scoreLetter (gameState w) now letter (gameState w)
               /\ buildings w1 = buildings w
               /\ letters w1 = before ++ after
               /\ particles w1
                  = firstn MAX_PARTICLES
                      (particles w
                       ++ fst (newParticles Math_random (Letter.x letter)
                                 (Letter.y letter) w))).
  { subst w1. unfold step.
    destruct (handleKeyPress_match Math_random toUpperCase w e_key now letter Hm)
      as (Hgs & Hb & Hls & Hp).
    rewrite Hgs, Hb, Hls, Hp, Hidx, Hl.
    repeat split. apply filter_index_neq_split. }
  destruct H1 as (Hgs1 & Hb1 & Hls1 & Hp1).
  split.
  - rewrite Hgs1, Hb1, Hls1, Hp1. repeat split.
  - assert (E : w2 = exec (handleKeyPress Math_random toUpperCase (gameState w)
                              (letters w) e_key now') w1).
    { subst w2 w1. rewrite keyPressFocused_exec. reflexivity. }
    destruct (handleKeyPress_match_on Math_random toUpperCase w w1 e_key now' letter Hm)
      as (Hgs & Hb & Hls & Hp).
    rewrite <- E in Hgs, Hb, Hls, Hp.
    rewrite Hgs, Hb, Hls, Hp, Hgs1, Hb1, Hls1, Hidx.
    split; [apply filter_index_neq_tail |].
    cbn [scoreLetter score combo lastPoints lastComboTime powerUpActive].
    repeat split.
    destruct (LetterType_eqb (Letter.type letter) POWER); reflexivity.
Qed.

(** X10.  The handler sees the key only through its upper-case form:
    two keys with the same upper-case form, such as a letter and its
    capital, have the same effect, whether the key press reaches the
    handler once or twice. *)
Theorem keyPress_ignores_case (w : World) (e_key e_key' : string) (now now' : Z) :
  toUpperCase e_key = toUpperCase e_key' ->
  step Math_random Math_sin toUpperCase (KeyPress e_key now) w
  = step Math_random Math_sin toUpperCase (KeyPress e_key' now) w
  /\ step Math_random Math_sin toUpperCase (KeyPressFocused e_key now now') w
     = step Math_random Math_sin toUpperCase (KeyPressFocused e_key' now now') w.
Proof.
  intros H. unfold step, handleKeyPress. rewrite H. split; reflexivity.
Qed.

Lemma played_on_refl (gs : GameState) : played_on gs gs.
Proof. unfold played_on. repeat split; auto; lia. Qed.

Lemma played_on_trans (a b c : GameState) :
  played_on a b -> played_on b c -> played_on a c.
Proof.
  unfold played_on.
  intros (H1 & H2 & H3 & H4 & H5 & H6) (K1 & K2 & K3 & K4 & K5 & K6).
  repeat split; auto; try lia; congruence.
Qed.

Lemma keyPress_played_on (w w1 : World) (e_key : string) (now : Z) :
  0 <= combo (gameState w) ->
  played_on (gameState w1)
    (gameState (exec (handleKeyPress Math_random toUpperCase (gameState w) (letters w)
                        e_key now) w1)).
Proof.
  intros Hcombo.
  destruct (matchedLetter toUpperCase w e_key) as [letter|] eqn:Hm.
  - destruct (handleKeyPress_match_on Math_random toUpperCase w w1 e_key now letter Hm)
      as (Hgs & _).
    rewrite Hgs. unfold played_on. cbn [scoreLetter score cityHealth highScore level
                                         isActive powerUpActive].
    pose proof (letterPoints_bounds (gameState w) now letter Hcombo).
    repeat split; auto; try lia.
    intros ->. now destruct (LetterType_eqb _ _).
  - rewrite (handleKeyPress_no_match_on Math_random toUpperCase w w1 e_key now Hm).
    apply played_on_refl.
Qed.

Lemma step_played_on (e : Event) (w : World) :
  Inv w -> e <> PlayAgain ->
  played_on (gameState w) (gameState (step Math_random Math_sin toUpperCase e w)).
Proof.
  intros (_ & _ & _ & Hcombo & Hcity & _) He.
  destruct e as [ | | e_key now | e_key now now' | now | now | | | ];
    [| | | rewrite keyPressFocused_exec;
           eapply played_on_trans; now apply keyPress_played_on | | | | |];
    unfold step.
  - unfold startGame. destruct (isActive (gameState w)) eqn:Hact.
    + apply played_on_refl.
    + unfold played_on. cbn. rewrite Hact. repeat split; auto; lia.
  - congruence.
  - now apply keyPress_played_on.
  - destruct (running (gameState w)); [| apply played_on_refl].
    destruct (spawnTimer_cells Math_random (gameState w) now w) as (Hgs & _).
    rewrite Hgs. apply played_on_refl.
  - destruct (running (gameState w)); [| apply played_on_refl].
    destruct (gameLoop_effect Math_random Math_sin (gameState w) (buildings w) now w)
      as ((Hs & Hl & _ & Hh & _ & _ & Ha & _ & _ & Hp & Hc) & _).
    unfold played_on. rewrite Hs, Hl, Hh, Ha, Hp.
    repeat split; auto; try lia; apply Hc; lia.
  - destruct (particleLoop_enabled w); apply played_on_refl.
  - destruct (comboTimeout w); [| apply played_on_refl].
    unfold played_on. cbn. repeat split; auto; lia.
  - destruct (shakeTimeout w); apply played_on_refl.
Qed.

(** X11.  Between two resets play only goes one way.  Along any run
    from a reachable world that does not press the reset button, the
    score never falls, city health never rises, the high score and the
    level stay what they were, a started game stays started and an
    active power-up stays active. *)
Theorem play_goes_one_way (es : list Event) (w : World) :
  reachable Math_random Math_sin toUpperCase w ->
  Forall (fun e => e <> PlayAgain) es ->
  played_on (gameState w) (gameState (run Math_random Math_sin toUpperCase es w)).
Proof.
  revert w. induction es as [|e es IH]; intros w Hreach Hes.
  - apply played_on_refl.
  - inversion Hes as [|e' es' He Hrest]; subst.
    change (run Math_random Math_sin toUpperCase (e :: es) w)
      with (run Math_random Math_sin toUpperCase es (step Math_random Math_sin toUpperCase e w)).
    eapply played_on_trans.
    + apply step_played_on; [now apply (reachable_Inv Math_random Math_sin toUpperCase) | exact He].
    + apply IH; [now constructor | exact Hrest].
Qed.

(** X12.  What each event leaves alone, in any world.  Only a game-loop
    tick or a reset changes a building or the city health; only a key
    press (reaching the handler once or twice) or a reset changes
    score, last points, last combo time or the power-up; the combo
    changes only on a key press, a combo timeout or a reset; and only
    the spawn timer makes the list of letters longer. *)
Theorem event_footprint (e : Event) (w : World) :
  let w' := step Math_random Math_sin toUpperCase e w in
  (match e with
   | GameLoop _ | PlayAgain => True
   | _ => buildings w' = buildings w
          /\ cityHealth (gameState w') = cityHealth (gameState w)
   end)
  /\ (match e with
      | KeyPress _ _ | KeyPressFocused _ _ _ | PlayAgain => True
      | _ => score (gameState w') = score (gameState w)
             /\ lastPoints (gameState w') = lastPoints (gameState w)
             /\ lastComboTime (gameState w') = lastComboTime (gameState w)
             /\ powerUpActive (gameState w') = powerUpActive (gameState w)
      end)
  /\ (match e with
      | KeyPress _ _ | KeyPressFocused _ _ _ | ComboTimeout | PlayAgain => True
      | _ => combo (gameState w') = combo (gameState w)
      end)
  /\ (match e with
      | SpawnTimer _ => True
      | _ => (List.length (letters w') <= List.length (letters w))%nat
      end).
Proof.
  intros w'. subst w'.
  destruct e as [ | | e_key now | e_key now now' | now | now | | | ].
  - unfold step, startGame.
    destruct (negb (isActive (gameState w))); cbn; repeat split; auto.
  - unfold step. rewrite (resetGame_letters Math_random). repeat split. simpl. lia.
  - unfold step.
    destruct (matchedLetter toUpperCase w e_key) as [letter|] eqn:Hm.
    + destruct (handleKeyPress_match Math_random toUpperCase w e_key now letter Hm)
        as (Hgs & Hb & Hls & _).
      rewrite Hgs, Hb, Hls. repeat split. apply filter_index_neq_length.
    + rewrite (handleKeyPress_no_match Math_random toUpperCase w e_key now Hm). repeat split; auto.
  - rewrite keyPressFocused_exec.
    destruct (matchedLetter toUpperCase w e_key) as [letter|] eqn:Hm.
    + match goal with
      | |- context [exec ?c2 (exec ?c1 w)] =>
          destruct (handleKeyPress_match_on Math_random toUpperCase w (exec c1 w)
                      e_key now' letter Hm) as (Hgs2 & Hb2 & Hls2 & _)
      end.
      destruct (handleKeyPress_match Math_random toUpperCase w e_key now letter Hm)
        as (Hgs & Hb & Hls & _).
      rewrite Hgs2, Hb2, Hls2, Hgs, Hb, Hls. repeat split.
      eapply Nat.le_trans; apply filter_index_neq_length.
    + rewrite !(handleKeyPress_no_match_on Math_random toUpperCase w _ e_key _ Hm).
      repeat split; auto.
  - unfold step. destruct (running (gameState w)); [| repeat split; auto].
    destruct (spawnTimer_cells Math_random (gameState w) now w) as (Hgs & Hb & _).
    rewrite Hgs, Hb. repeat split.
  - unfold step. destruct (running (gameState w)); [| repeat split; auto].
    destruct (gameLoop_effect Math_random Math_sin (gameState w) (buildings w) now w)
      as ((Hs & _ & Hc & _ & Ht & Hl & _ & _ & _ & Hp & _) & _).
    rewrite (gameLoop_letters Math_random Math_sin), Hs, Hc, Ht, Hl, Hp.
    repeat split.
    eapply Nat.le_trans; [apply filter_length_le | now rewrite length_map].
  - unfold step. destruct (particleLoop_enabled w); repeat split; auto.
  - unfold step. destruct (comboTimeout w); repeat split; auto.
  - unfold step. destruct (shakeTimeout w); repeat split; auto.
Qed.

(** X13.  The level never leaves 1 on any run, so the difficulty never
    changes: the spawn interval stays 2000 ms and the base speed of a
    letter stays 0.8. *)
Theorem difficulty_never_changes (w : World) :
  reachable Math_random Math_sin toUpperCase w ->
  level (gameState w) = 1
  /\ (spawnInterval (gameState w) == 2000)%Q
  /\ (letterSpeed (gameState w) == 0.8)%Q.
Proof.
  intros Hreach. apply reachable_Inv in Hreach.
  destruct Hreach as (_ & _ & Hlevel & _).
  unfold spawnInterval, letterSpeed. rewrite Hlevel.
  repeat split.
Qed.

(** X14.  Each candidate type is tested against a draw of its own, in
    the order NORMAL, FAST, BONUS, POWER, and the first type whose draw
    is below its probability is taken, NORMAL if none is.  The
    character, the x and the rotation of the letter then come from the
    next three draws, in this order; a firing of the spawn timer
    consumes between four and seven draws. *)
Theorem spawnTimer_draws (gs : GameState) (now : Z) (w : World) :
  let r := fun k => Math_random (k + draws w)%nat in
  let d := drawsForType (r 0%nat) (r 1%nat) (r 2%nat) in
  let t := firstTypeUnder (r 0%nat) (r 1%nat) (r 2%nat) (r 3%nat) in
  let w' := exec (spawnTimer Math_random gs now) w in
  letters w'
  = letters w
    ++ [ {| Letter.id := now;
            Letter.char := alphabet_at (Qfloor (r d * 26));
            Letter.type := t;
            Letter.x := r (S d) * (GAME_WIDTH - 20);
            Letter.y := 0;
            Letter.rotation := r (S (S d)) * 360;
            Letter.scale := 1;
            Letter.speed :=
              letterSpeed gs * (if LetterType_eqb t FAST then 1.5 else 1) |}%Q ]
  /\ draws w' = (d + 3 + draws w)%nat
  /\ (4 <= d + 3 <= 7)%nat.
Proof.
  intros r d t w'. subst r d t w'.
  unfold firstTypeUnder, drawsForType, spawnTimer, pickLetterType,
    LETTER_TYPES_values, findM, newLetter, random, setLetters, bind, ret, exec.
  cbn [fst snd gameState buildings letters particles shake comboTimeout
       shakeTimeout draws probability Nat.add].
  destruct (Qltb (Math_random (draws w)) 0.65);
    [cbn [fst snd letters draws Nat.add LetterType_eqb];
     split; [reflexivity | split; [reflexivity | lia]] |].
  cbn [fst snd gameState buildings letters particles shake comboTimeout
       shakeTimeout draws probability Nat.add].
  destruct (Qltb (Math_random (S (draws w))) 0.15);
    [cbn [fst snd letters draws Nat.add LetterType_eqb];
     split; [reflexivity | split; [reflexivity | lia]] |].
  cbn [fst snd gameState buildings letters particles shake comboTimeout
       shakeTimeout draws probability Nat.add].
  destruct (Qltb (Math_random (S (S (draws w)))) 0.12);
    [cbn [fst snd letters draws Nat.add LetterType_eqb];
     split; [reflexivity | split; [reflexivity | lia]] |].
  cbn [fst snd gameState buildings letters particles shake comboTimeout
       shakeTimeout draws probability Nat.add].
  destruct (Qltb (Math_random (S (S (S (draws w))))) 0.08);
    cbn [fst snd letters draws Nat.add LetterType_eqb];
    (split; [reflexivity | split; [reflexivity | lia]]).
Qed.

End Handlers.

Section Timers.

Variable Math_random : nat -> Q.
Variable Math_sin : Q -> Q.
Variable toUpperCase : string -> string.

Lemma shake_setGameState (u : GameState -> GameState) (w : World) :
  shake (exec (setGameState u) w) = shake w
  /\ shakeTimeout (exec (setGameState u) w) = shakeTimeout w
  /\ comboTimeout (exec (setGameState u) w) = comboTimeout w.
Proof. repeat split. Qed.

Lemma shake_setBuildings (u : list Building.t -> React (list Building.t)) (w : World) :
  shake (exec (setBuildings u) w) = shake (exec (u (buildings w)) w)
  /\ shakeTimeout (exec (setBuildings u) w) = shakeTimeout (exec (u (buildings w)) w).
Proof. rewrite exec_setBuildings. split; reflexivity. Qed.

Lemma timers_setLetters (u : list Letter.t -> React (list Letter.t)) (w : World) :
  shake (exec (setLetters u) w) = shake (exec (u (letters w)) w)
  /\ shakeTimeout (exec (setLetters u) w) = shakeTimeout (exec (u (letters w)) w)
  /\ comboTimeout (exec (setLetters u) w) = comboTimeout (exec (u (letters w)) w)
  /\ gameState (exec (setLetters u) w) = gameState (exec (u (letters w)) w).
Proof. rewrite exec_setLetters. repeat split. Qed.

Lemma createExplosion_shakes (x y : Q) (w : World) :
  shake (exec (createExplosion Math_random x y) w) = true
  /\ shakeTimeout (exec (createExplosion Math_random x y) w) = true.
Proof.
  unfold createExplosion. rewrite !exec_bind.
  generalize (exec (newParticles Math_random x y) w).
  generalize (fst (newParticles Math_random x y w)).
  intros fresh w1. split; reflexivity.
Qed.

Lemma damage_shake (b : Building.t) (w : World) :
  (shake w = true -> shakeTimeout w = true) ->
  shake (exec (damage Math_random b) w) = true ->
  shakeTimeout (exec (damage Math_random b) w) = true.
Proof.
  intros H. rewrite damage_exec. destruct (Building.health b - 1 <=? 0); [| exact H].
  intros _.
  destruct (shake_setGameState loseCityHealth
              (exec (createExplosion Math_random
                       (Building.x b + Building.width b / 2)%Q
                       (GAME_HEIGHT - Building.height b / 2)%Q) w)) as (_ & -> & _).
  apply createExplosion_shakes.
Qed.

Lemma mapM_shake (k : Z) (prev : list Building.t) :
  forall i w,
    (shake w = true -> shakeTimeout w = true) ->
    shake (exec (mapM (fun b i => if Z.of_nat i =? k
                                  then damage Math_random b else ret b)
                      i prev) w) = true ->
    shakeTimeout (exec (mapM (fun b i => if Z.of_nat i =? k
                                         then damage Math_random b else ret b)
                             i prev) w) = true.
Proof.
  induction prev as [|b prev IH]; intros i w H; simpl mapM.
  - exact H.
  - rewrite !exec_bind, exec_ret. apply IH.
    destruct (Z.of_nat i =? k); [now apply damage_shake | exact H].
Qed.

Lemma handleLetterCollision_shake
  (buildings0 : list Building.t) (letter : Letter.t) (w : World) :
  (shake w = true -> shakeTimeout w = true) ->
  shake (exec (handleLetterCollision Math_random buildings0 letter) w) = true ->
  shakeTimeout (exec (handleLetterCollision Math_random buildings0 letter) w) = true.
Proof.
  intros H. unfold handleLetterCollision.
  destruct (negb (findIndex (isHit letter) buildings0 =? -1)); [| exact H].
  match goal with
  | |- context [setBuildings ?u] =>
      destruct (shake_setBuildings u w) as [-> ->]
  end.
  now apply mapM_shake.
Qed.

Lemma collisions_shake (buildings0 : list Building.t) (ls : list Letter.t) :
  forall w,
    (shake w = true -> shakeTimeout w = true) ->
    shake (fold_left
             (fun w l => exec (handleLetterCollision Math_random buildings0 l) w)
             ls w) = true ->
    shakeTimeout (fold_left
             (fun w l => exec (handleLetterCollision Math_random buildings0 l) w)
             ls w) = true.
Proof.
  induction ls as [|l ls IH]; intros w H; simpl fold_left.
  - exact H.
  - apply IH. now apply handleLetterCollision_shake.
Qed.

Lemma gameLoop_timers (now : Z) (w : World) :
  timers_pending w ->
  timers_pending (exec (gameLoop Math_random Math_sin (gameState w) (buildings w) now) w).
Proof.
  intros [Hshake Hcombo]. unfold timers_pending, gameLoop.
  match goal with
  | |- context [setLetters ?u] =>
      destruct (timers_setLetters u w) as (-> & -> & -> & ->)
  end.
  split.
  - rewrite filterM_collisions. now apply collisions_shake.
  - destruct (filterM_impacts Math_random (buildings w)
                (map (moveLetter Math_sin (gameState w) now) (letters w)) w)
      as [_ ((_ & _ & Hc & _) & _ & Ht & _)].
    rewrite Hc, Ht. exact Hcombo.
Qed.

Lemma handleKeyPress_timers_on
  (w w1 : World) (e_key : string) (now : Z) (letter : Letter.t) :
  matchedLetter toUpperCase w e_key = Some letter ->
  let w' := exec (handleKeyPress Math_random toUpperCase (gameState w) (letters w)
                    e_key now) w1 in
  shake w' = true /\ shakeTimeout w' = true /\ comboTimeout w' = true.
Proof.
  unfold matchedLetter, handleKeyPress.
  destruct (running (gameState w)); [| discriminate]. simpl negb. cbv iota.
  destruct (findIndex _ (letters w) =? -1); [discriminate |]. simpl negb. cbv iota.
  intros ->. cbv zeta.
  rewrite !exec_bind, keyPress_tail.
  pose proof (createExplosion_shakes (Letter.x letter) (Letter.y letter) w1) as H.
  revert H.
  generalize (exec (createExplosion Math_random (Letter.x letter) (Letter.y letter)) w1).
  intros w2 (Hs & Ht).
  cbn [shake shakeTimeout comboTimeout]. auto.
Qed.

Lemma handleKeyPress_timers (w : World) (e_key : string) (now : Z) (letter : Letter.t) :
  matchedLetter toUpperCase w e_key = Some letter ->
  let w' := exec (handleKeyPress Math_random toUpperCase (gameState w) (letters w) e_key now) w in
  shake w' = true /\ shakeTimeout w' = true /\ comboTimeout w' = true.
Proof. apply handleKeyPress_timers_on. Qed.

Lemma timers_keyPress_on (w w1 : World) (e_key : string) (now : Z) :
  timers_pending w1 ->
  timers_pending (exec (handleKeyPress Math_random toUpperCase (gameState w) (letters w)
                          e_key now) w1).
Proof.
  intros HT. destruct (matchedLetter toUpperCase w e_key) as [letter|] eqn:Hm.
  - destruct (handleKeyPress_timers_on w w1 e_key now letter Hm) as (Hs & Ht & Hc).
    unfold timers_pending. rewrite Ht, Hc. auto.
  - now rewrite (handleKeyPress_no_match_on Math_random toUpperCase w w1 e_key now Hm).
Qed.

Lemma spawnTimer_timers (gs : GameState) (now : Z) (w : World) :
  shake (exec (spawnTimer Math_random gs now) w) = shake w
  /\ shakeTimeout (exec (spawnTimer Math_random gs now) w) = shakeTimeout w
  /\ comboTimeout (exec (spawnTimer Math_random gs now) w) = comboTimeout w.
Proof.
  unfold spawnTimer. rewrite exec_bind.
  match goal with
  | |- context [exec (setLetters ?u) ?w0] =>
      destruct (timers_setLetters u w0) as (-> & -> & -> & _)
  end.
  rewrite !exec_bind, exec_ret.
  pose proof (pickLetterType_same_cells Math_random w) as H. revert H.
  generalize (fst (pickLetterType Math_random w)).
  generalize (exec (pickLetterType Math_random) w).
  intros w1 t (_ & _ & _ & _ & Hs & Hc & Ht).
  destruct (newLetter_same_cells Math_random gs t now w1)
    as (_ & _ & _ & _ & Hs' & Hc' & Ht').
  rewrite Hs', Hc', Ht', Hs, Hc, Ht. repeat split.
Qed.

Lemma timers_mounted : timers_pending (mounted Math_random).
Proof.
  unfold mounted, initBuildings. rewrite exec_bind, resetGame_tail.
  pose proof (arrayFrom_same_cells (newBuilding Math_random)
                (newBuilding_same_cells Math_random) BUILDING_COUNT 0 initialWorld)
    as Hsame.
  revert Hsame.
  generalize (fst (arrayFrom (newBuilding Math_random) 0 BUILDING_COUNT initialWorld)).
  generalize (exec (arrayFrom (newBuilding Math_random) 0 BUILDING_COUNT) initialWorld).
  intros w1 nb (Hg & _ & _ & _ & Hs & _).
  unfold timers_pending. cbn [shake shakeTimeout comboTimeout gameState].
  rewrite Hg, Hs. split; [discriminate | simpl; lia].
Qed.

Lemma timers_step (e : Event) (w : World) :
  timers_pending w -> timers_pending (step Math_random Math_sin toUpperCase e w).
Proof.
  intros HT. pose proof HT as [Hshake Hcombo].
  destruct e as [ | | e_key now | e_key now now' | now | now | | | ];
    [| | | rewrite keyPressFocused_exec; now do 2 apply timers_keyPress_on | | | | |];
    unfold step.
  - unfold startGame. destruct (negb (isActive (gameState w))); exact HT.
  - destruct (resetGame_cells Math_random w) as (Hg & _ & _ & _ & Hc & Ht & Hs).
    unfold timers_pending. rewrite Hg, Hc, Ht, Hs. split; [exact Hshake |].
    simpl. lia.
  - now apply timers_keyPress_on.
  - destruct (running (gameState w)); [| exact HT].
    destruct (spawnTimer_timers (gameState w) now w) as (Hs & Ht & Hc).
    destruct (spawnTimer_cells Math_random (gameState w) now w) as (Hg & _).
    unfold timers_pending. now rewrite Hs, Ht, Hc, Hg.
  - destruct (running (gameState w)); [| exact HT]. now apply gameLoop_timers.
  - destruct (particleLoop_enabled w); exact HT.
  - destruct (comboTimeout w); [| exact HT].
    unfold timers_pending. cbn. split; [exact Hshake | lia].
  - destruct (shakeTimeout w); [| exact HT].
    unfold timers_pending. cbn. split; [discriminate | exact Hcombo].
Qed.

(** X15.  Nothing is left hanging.  In every reachable world, while the
    screen shakes the timeout that stops the shake is pending, and
    while the combo is positive the timeout that ends the streak is
    pending; a key press that matches a letter leaves the screen
    shaking and both timeouts pending. *)
Theorem timeouts_are_pending (w : World) :
  reachable Math_random Math_sin toUpperCase w ->
  timers_pending w
  /\ forall e_key now letter,
       matchedLetter toUpperCase w e_key = Some letter ->
       let w' := step Math_random Math_sin toUpperCase (KeyPress e_key now) w in
       shake w' = true /\ shakeTimeout w' = true /\ comboTimeout w' = true.
Proof.
  intros Hreach. split.
  - induction Hreach as [|e w _ IH]; [apply timers_mounted | now apply timers_step].
  - intros e_key now letter Hm. exact (handleKeyPress_timers w e_key now letter Hm).
Qed.

Lemma filterM_no_impact (buildings0 : list Building.t) (ls : list Letter.t) (w : World) :
  Forall (fun l => impacts l = false) ls ->
  filterM (fun letter =>
             if impacts letter then
               handleLetterCollision Math_random buildings0 letter ;; ret false
             else ret true) ls w
  = (ls, w).
Proof.
  intros H. revert w. induction H as [|l ls Hl _ IH]; intros w; simpl filterM.
  - reflexivity.
  - rewrite Hl. unfold bind at 1. unfold ret at 1.
    unfold bind at 1. rewrite IH. reflexivity.
Qed.

(** X16.  A tick of the game loop in which no moved letter reaches the
    ground line only moves the letters: every letter is kept, in
    order, and game state, buildings, particles, shake, timeouts and
    the random draws are exactly what they were. *)
Theorem tick_without_impact (w : World) (now : Z) :
  running (gameState w) = true ->
  Forall (fun l => impacts (moveLetter Math_sin (gameState w) now l) = false)
         (letters w) ->
  step Math_random Math_sin toUpperCase (GameLoop now) w
  = with_letters w (map (moveLetter Math_sin (gameState w) now) (letters w)).
Proof.
  intros Hrun Hquiet. unfold step. rewrite Hrun.
  unfold gameLoop, exec, setLetters.
  rewrite filterM_no_impact; [reflexivity |].
  apply Forall_forall. intros l' Hl'. apply in_map_iff in Hl'.
  destruct Hl' as (l & <- & Hl). rewrite Forall_forall in Hquiet. now apply Hquiet.
Qed.

End Timers.

(** * The further properties, on the concrete runs *)

Lemma buildings_stay_laid_out_witness :
  reachable steady no_sin toUpperCase_ASCII (mounted steady)
  /\ laid_out (buildings (mounted steady)).
Proof.
  split; [constructor |].
  destruct (buildings_stay_laid_out steady steady_range no_sin toUpperCase_ASCII (mounted steady))
    as [H _]; [constructor | exact H].
Defined.

Lemma spawnTimer_appends_one_letter_witness :
  exists l,
    letters (step steady no_sin toUpperCase_ASCII (SpawnTimer 1700000000000)
               (run steady no_sin toUpperCase_ASCII [Click] (mounted steady)))
    = letters (run steady no_sin toUpperCase_ASCII [Click] (mounted steady)) ++ [l]
    /\ Letter.y l = 0%Q.
Proof.
  destruct (spawnTimer_appends_one_letter steady steady_range no_sin toUpperCase_ASCII
              (run steady no_sin toUpperCase_ASCII [Click] (mounted steady)) 1700000000000)
    as (_ & _ & _ & l & Hl & _ & Hy & _).
  - apply run_reachable. constructor.
  - vm_compute. reflexivity.
  - exists l. split; assumption.
Defined.

Lemma letters_on_screen_witness : Forall letter_ok (letters first_letter).
Proof.
  exact (letters_on_screen steady steady_range no_sin toUpperCase_ASCII first_letter
           first_letter_reachable).
Defined.

Lemma idle_game_is_fresh_and_inert_witness :
  isActive (gameState (mounted steady)) = false /\ pristine (mounted steady).
Proof.
  assert (Hidle : isActive (gameState (mounted steady)) = false)
    by (vm_compute; reflexivity).
  split; [exact Hidle |].
  destruct (idle_game_is_fresh_and_inert steady steady_range no_sin toUpperCase_ASCII (mounted steady))
    as [H _]; [constructor | exact Hidle | exact H].
Defined.

Lemma resetGame_result_witness :
  letters (step steady no_sin toUpperCase_ASCII PlayAgain first_letter) = []
  /\ laid_out (buildings (step steady no_sin toUpperCase_ASCII PlayAgain first_letter)).
Proof.
  destruct (resetGame_result steady steady_range no_sin toUpperCase_ASCII first_letter)
    as (_ & Hl & _ & Hb & _).
  split; assumption.
Defined.

Lemma particles_fade_out_witness :
  particles (run steady no_sin toUpperCase_ASCII (repeat ParticleLoop 50) (after_typist 1)) = [].
Proof.
  destruct (particles_fade_out steady steady_range no_sin toUpperCase_ASCII
              (repeat ParticleLoop 50) (after_typist 1)) as [_ H].
  - apply after_typist_reachable.
  - apply Forall_forall. intros e He. apply repeat_spec in He. subst e. reflexivity.
  - vm_compute. lia.
  - exact H.
Defined.

Lemma counters_stay_in_range_witness : 0 <= score (gameState (after_typist 1)).
Proof.
  destruct (counters_stay_in_range steady steady_range no_sin toUpperCase_ASCII (after_typist 1))
    as [H _]; [apply after_typist_reachable | exact H].
Defined.

Lemma keyPress_without_match_witness :
  step steady no_sin toUpperCase_ASCII (KeyPress "b" 1700000000500) first_letter
  = first_letter.
Proof.
  destruct (keyPress_without_match steady no_sin toUpperCase_ASCII first_letter "b"
              1700000000500 1700000000500) as [H _].
  - right. unfold no_letter_for. vm_compute. repeat constructor.
  - exact H.
Defined.

Lemma keyPress_removes_first_match_witness :
  letters first_letter = [first_A]
  /\ letters (step steady no_sin toUpperCase_ASCII (KeyPress "a" 1700000000500)
                first_letter) = [].
Proof.
  assert (Hl : letters first_letter = [] ++ first_A :: [])
    by (vm_compute; reflexivity).
  split; [exact Hl |].
  destruct (keyPress_removes_first_match steady no_sin toUpperCase_ASCII first_letter
              "a" 1700000000500 1700000000500 [] [] first_A)
    as (_ & (H & _) & _).
  - vm_compute. reflexivity.
  - exact Hl.
  - constructor.
  - reflexivity.
  - exact H.
Defined.

Lemma keyPress_ignores_case_witness :
  step steady no_sin toUpperCase_ASCII (KeyPress "a" 1700000000500) first_letter
  = step steady no_sin toUpperCase_ASCII (KeyPress "A" 1700000000500) first_letter.
Proof.
  destruct (keyPress_ignores_case steady no_sin toUpperCase_ASCII first_letter
              "a" "A" 1700000000500 1700000000500) as [H _].
  - reflexivity.
  - exact H.
Defined.

Lemma play_goes_one_way_witness :
  played_on (gameState (mounted steady))
    (gameState (run steady no_sin toUpperCase_ASCII
                  [Click; SpawnTimer 1700000000000; KeyPress "a" 1700000000500]
                  (mounted steady))).
Proof.
  apply play_goes_one_way; [constructor |].
  repeat constructor; discriminate.
Defined.

Lemma difficulty_never_changes_witness : level (gameState first_letter) = 1.
Proof.
  destruct (difficulty_never_changes steady no_sin toUpperCase_ASCII first_letter first_letter_reachable)
    as [H _].
  exact H.
Defined.

Lemma timeouts_are_pending_witness : timers_pending (after_typist 1).
Proof.
  destruct (timeouts_are_pending steady no_sin toUpperCase_ASCII (after_typist 1)
              (after_typist_reachable 1)) as [H _].
  exact H.
Defined.

Lemma tick_without_impact_witness :
  step steady no_sin toUpperCase_ASCII (GameLoop 1700000000016) first_letter
  = with_letters first_letter
      (map (moveLetter no_sin (gameState first_letter) 1700000000016)
           (letters first_letter)).
Proof.
  apply tick_without_impact.
  - vm_compute. reflexivity.
  - vm_compute. repeat constructor.
Defined.
